(** * SPC6G: analytical PRR / PIR model

    A shallow embedding of [calculations.py] and [analytical_prr_pir.py].

    Numbers.  Python floats and NumPy float64 values are read as real numbers
    ([R]); rounding, overflow and NaN are outside this reading.  The one
    infinite value the source produces on purpose, [float('inf')] in
    [calculate_pir_dij], is kept by the type [xreal].  Python integers
    ([max_distance], [step_distance], the elements of a [range]) are [Z].

    Partial operations.  A division by zero or a power outside the reals
    either raises in Python ([ZeroDivisionError], a complex result refused by
    [int]) or, on NumPy operands, yields [nan] or an infinity.  Neither is a
    real number, so both are the outcome [Fails].  The threshold loop of the
    driver has no bound in the source; it is run on a fuel, and [OutOfFuel]
    says the fuel did not suffice.

    [scipy.special.erf] is a library function.  The development is generic in
    it through the class [SpecialFunctions]. *)

From Stdlib Require Import Reals Lra Lia ZArith List Bool.
Import ListNotations.

Open Scope R_scope.

(* ================================================================== *)
(** ** Outcomes of a call *)

Inductive outcome (A : Type) : Type :=
| Returns (a : A)
| Fails
| OutOfFuel.

Arguments Returns {A} a.
Arguments Fails {A}.
Arguments OutOfFuel {A}.

Definition bind {A B : Type} (m : outcome A) (k : A -> outcome B) : outcome B :=
  match m with
  | Returns a => k a
  | Fails => Fails
  | OutOfFuel => OutOfFuel
  end.

Notation "x <- m ;; k" := (bind m (fun x => k))
  (at level 61, m at next level, right associativity).
Notation "' pat <- m ;; k" := (bind m (fun x => match x with pat => k end))
  (at level 61, pat pattern, m at next level, right associativity).

Fixpoint mapM {A B : Type} (f : A -> outcome B) (l : list A) : outcome (list B) :=
  match l with
  | [] => Returns []
  | a :: l' => b <- f a ;; bs <- mapM f l' ;; Returns (b :: bs)
  end.

(* ================================================================== *)
(** ** Python and NumPy primitives *)

(** Python's [float], read as a real number.  The source names a variable
    [R]; the type is written [float] where that name is bound. *)
Abbreviation float := R (only parsing).

(** A float, or [float('inf')]. *)
Inductive xreal : Type :=
| Finite (r : R)
| PlusInf.

(** [x / y]. *)
Definition py_div (x y : R) : outcome R :=
  if Req_dec_T y 0 then Fails else Returns (x / y).

(** [x ** y] on floats: the real power for a positive base; [0 ** y] is 0 for
    [y > 0], 1 for [y = 0] and undefined below; a negative base has a real
    power at integer exponents only. *)
Definition py_pow (x y : R) : outcome R :=
  if Rlt_dec 0 x then Returns (Rpower x y)
  else if Req_dec_T x 0 then
    if Rlt_dec 0 y then Returns 0
    else if Req_dec_T y 0 then Returns 1
    else Fails
  else if Req_dec_T (IZR (Int_part y)) y then Returns (powerRZ x (Int_part y))
  else Fails.

(** [math.log10(x)]: [ValueError] unless [x > 0]. *)
Definition math_log10 (x : R) : outcome R :=
  if Rlt_dec 0 x then Returns (Rlog 10 x) else Fails.

(** [int(x)] on a float: truncation toward zero. *)
Definition py_int (x : R) : Z :=
  if Rle_dec 0 x then Int_part x else (- Int_part (- x))%Z.

(** Number of elements of [range(start, stop, step)], [step <> 0]. *)
Definition range_length (start stop step : Z) : Z :=
  if (0 <? step)%Z then
    if (start <? stop)%Z then ((stop - start - 1) / step + 1)%Z else 0%Z
  else
    if (stop <? start)%Z then ((start - stop - 1) / (- step) + 1)%Z else 0%Z.

Definition range_elements (start stop step : Z) : list Z :=
  map (fun k => (start + Z.of_nat k * step)%Z)
      (seq 0 (Z.to_nat (range_length start stop step))).

(** [range(start, stop, step)]: [ValueError] when [step] is zero. *)
Definition py_range (start stop step : Z) : outcome (list Z) :=
  if (step =? 0)%Z then Fails else Returns (range_elements start stop step).

(** [np.arange(start, stop, 1)] on integers. *)
Definition np_arange (start stop : Z) : list Z := range_elements start stop 1.

(** [np.sum] and [np.prod] of a sequence. *)
Definition np_sum (l : list R) : R := fold_right Rplus 0 l.
Definition np_prod (l : list R) : R := fold_right Rmult 1 l.

(** The interface of [scipy.special.erf]: a real function with values
    strictly between -1 and 1. *)
Class SpecialFunctions : Type := {
  erf : R -> R;
  erf_range : forall x, -1 < erf x < 1
}.

(* ================================================================== *)
(** ** [calculations.py] *)

Section Calculations.

Context {SF : SpecialFunctions}.

Definition calculate_d_int (P_t K_0 gamma d_ij alpha N_0 : float) : outcome float :=
  let numerator := P_t * K_0 in
  d_pow <- py_pow d_ij alpha ;;
  q <- py_div (P_t * K_0) (gamma * d_pow) ;;
  let denominator := q - N_0 in
  ratio <- py_div numerator denominator ;;
  e <- py_div 1 alpha ;;
  py_pow ratio e.

Definition calculate_RU (R spsr op : float) : outcome float :=
  p <- py_pow (1 - op) spsr ;;
  Returns (R * (1 - p)).

Definition calculate_u_dik (R RU common_neighbors_count spsr : float) : outcome float :=
  a <- py_div (RU ^ 2) R ;;
  q <- py_div common_neighbors_count spsr ;;
  Returns (a * (1 - q) + RU * q).

Definition calculate_o_dik (R RU u_dik : float) : float :=
  R - 2 * RU + u_dik.

Definition calculate_mu (rc1 rc2 psr_value : float) : outcome float :=
  q <- py_div 2 (rc1 + rc2) ;;
  Returns (1 - (1 - q) * psr_value).

Definition calculate_p_dik (mu_dik o_dik channels R_f : float) : outcome float :=
  q <- py_div channels R_f ;;
  Returns (mu_dik * o_dik * q ^ 2).

Definition calculate_ps_dik (p_dik p_res_ik : float) : float :=
  (1 - p_dik) + p_dik * (1 - p_res_ik).

Definition calculate_prr_dij (p_o_dij : float) : float :=
  1 - p_o_dij.

Definition calculate_pir_dij (p_o_dij RRI : float) : xreal :=
  if Rge_dec p_o_dij 1 then PlusInf
  else Finite (RRI / (1 - p_o_dij)).

(** [np.log10] is only applied to [|d| + 1 >= 1] (see [PSR]), where it is the
    real logarithm. *)
Definition PathLoss (d K0_dB gamma : float) : float * float :=
  let PL := - K0_dB + 10 * gamma * Rlog 10 d in
  let std_dev := 3 in
  (PL, std_dev).

Definition PSR (d Pt_dBm P_sen_dBm K0_dB gamma : float) : float :=
  let '(PL, std_dev) := PathLoss (Rabs d + 1) K0_dB gamma in
  0.5 * (1 + erf ((Pt_dBm - PL - P_sen_dBm) / (std_dev * sqrt 2))).

Definition SPSR (beta P_t_dB P_s_dB K_0_dB alpha : float) : float :=
  let distances := np_arange (-2000) 2000 in
  let psr_values := map (fun d => PSR (IZR d) P_t_dB P_s_dB K_0_dB alpha) distances in
  let spsr_sum := np_sum psr_values in
  beta * spsr_sum.

Definition rho (d_i_k sigma : float) : float :=
  exp (- d_i_k).

Definition common_neighbors (beta P_t_dB P_s_dB K_0_dB alpha d_i_k : float) : float :=
  let distances := np_arange (-2000) 2000 in
  let correlation_factor := rho d_i_k 3 in
  let common_psr :=
    map (fun d =>
           let psr_i := PSR (IZR d) P_t_dB P_s_dB K_0_dB alpha in
           let psr_k := PSR (Rabs (IZR d - d_i_k)) P_t_dB P_s_dB K_0_dB alpha in
           correlation_factor * Rmin psr_i psr_k
           + (1 - correlation_factor) * psr_i * psr_k)
        distances in
  let common_neighbors_sum := np_sum common_psr in
  beta * common_neighbors_sum.

End Calculations.

(* ================================================================== *)
(** ** [analytical_prr_pir.py] *)

(** The arguments of [calculate_analytical_results]. *)
Record config : Type := {
  channels : float;
  sinr_threshold_dB : float;
  beta : float;
  P_t_dB : float;
  fc : float;
  alpha : float;
  P_s_dB : float;
  N_0_dB : float;
  maxchannel : float;
  slot : float;
  s : float;
  rc1 : float;
  rc2 : float;
  rri : float;
  p_res_ik : float;
  max_distance : Z;
  step_distance : Z
}.

(** The locals computed before the threshold loop ([R_tot] is the local [R]). *)
Record derived : Type := {
  P_t : float;
  K_0_dB : float;
  K_0 : float;
  N_0 : float;
  sinr_threshold : float;
  R_tot : float
}.

(** The locals the threshold loop updates. *)
Record sensing : Type := {
  cur_P_s_dB : float;
  spsr : float;
  RU : float
}.

(** What one pass of the outer loop appends to the four result lists. *)
Record sample : Type := {
  prr_6G : float;
  prr_nr : float;
  pir_6G : xreal;
  pir_nr : xreal
}.

(** The returned tuple [(prr_spc6G, prr_nrv2x, pir_spc6G, pir_nrv2x)]. *)
Record results : Type := {
  prr_spc6G : list float;
  prr_nrv2x : list float;
  pir_spc6G : list xreal;
  pir_nrv2x : list xreal
}.

Section Driver.

Context {SF : SpecialFunctions}.

(** [distances = list(range(0, max_distance + step_distance, step_distance))]. *)
Definition outer_distances (c : config) : outcome (list Z) :=
  py_range 0 (max_distance c + step_distance c) (step_distance c).

(** The conversions to linear scale, the distance list and [R].  The base of
    [10 ** x] is positive, so the power is the real one. *)
Definition initialise (c : config) : outcome (derived * list Z) :=
  let P_s := Rpower 10 (P_s_dB c / 10) in
  let P_t := Rpower 10 (P_t_dB c / 10) in
  lg <- math_log10 (fc c) ;;
  let K_0_dB := - (32.4 + 20 * lg) in
  let K_0 := Rpower 10 (K_0_dB / 10) in
  let N_0 := Rpower 10 (N_0_dB c / 10) in
  let sinr_threshold := Rpower 10 (sinr_threshold_dB c / 10) in
  distances <- outer_distances c ;;
  channel_slot <- py_div (maxchannel c) (channels c) ;;
  q <- py_div (rri c) (slot c) ;;
  let R := maxchannel c * q in
  Returns ({| P_t := P_t; K_0_dB := K_0_dB; K_0 := K_0; N_0 := N_0;
              sinr_threshold := sinr_threshold; R_tot := R |}, distances).

(** [spsr = SPSR(...)] and [RU = calculate_RU(R, spsr, channels / R)] at a
    given [P_s_dB]. *)
Definition sense (c : config) (dv : derived) (P_s_dB : float) : outcome sensing :=
  let spsr := SPSR (beta c) (P_t_dB c) P_s_dB (K_0_dB dv) (alpha c) in
  op <- py_div (channels c) (R_tot dv) ;;
  RU <- calculate_RU (R_tot dv) spsr op ;;
  Returns {| cur_P_s_dB := P_s_dB; spsr := spsr; RU := RU |}.

(** [while RU > (1 - s) * R: P_s_dB += 3; spsr = ...; RU = ...]. *)
Fixpoint adjust_threshold (fuel : nat) (c : config) (dv : derived) (st : sensing)
  : outcome sensing :=
  if Rgt_dec (RU st) ((1 - s c) * R_tot dv) then
    match fuel with
    | O => OutOfFuel
    | S fuel' =>
        st' <- sense c dv (cur_P_s_dB st + 3) ;;
        adjust_threshold fuel' c dv st'
    end
  else Returns st.

Definition threshold_adjust (fuel : nat) (c : config) (dv : derived) : outcome sensing :=
  st0 <- sense c dv (P_s_dB c) ;;
  adjust_threshold fuel c dv st0.

(** [p_dik] of one inner sample [dik]. *)
Definition collision_probability (c : config) (dv : derived) (st : sensing) (dik : Z)
  : outcome float :=
  let d_ik := IZR (Z.abs dik) in
  let psr_value := PSR d_ik (P_t_dB c) (cur_P_s_dB st) (K_0_dB dv) (alpha c) in
  let common_neighbors_count :=
    common_neighbors (beta c) (P_t_dB c) (cur_P_s_dB st) (K_0_dB dv) (alpha c) d_ik in
  u_dik <- calculate_u_dik (R_tot dv) (RU st) common_neighbors_count (spsr st) ;;
  let o_dik := calculate_o_dik (R_tot dv) (RU st) u_dik in
  mu_dik <- calculate_mu (rc1 c) (rc2 c) psr_value ;;
  calculate_p_dik mu_dik o_dik (channels c) (R_tot dv - RU st).

(** The body of the inner loop: [(ps_dik, ps_dik_nr)]. *)
Definition neighbor_sample (c : config) (dv : derived) (st : sensing) (dik : Z)
  : outcome (float * float) :=
  p_dik <- collision_probability c dv st dik ;;
  q <- py_div (RU st) (R_tot dv) ;;
  let ps_dik := calculate_ps_dik p_dik q in
  let ps_dik_nr := 1 - p_dik in
  Returns (ps_dik, ps_dik_nr).

(** [d_ik_range = range(int(d_min), int(d_max), int(1 / beta))]. *)
Definition neighbor_range (beta : float) (d_ij : Z) (d_int : float) : outcome (list Z) :=
  let d_min := IZR d_ij - d_int in
  let d_max := IZR d_ij + d_int in
  inv_beta <- py_div 1 beta ;;
  py_range (py_int d_min) (py_int d_max) (py_int inv_beta).

(** The four values appended after the inner loop. *)
Definition aggregate (rri : float) (ps_values ps_dik_nr_values : list float) : sample :=
  {| prr_6G := calculate_prr_dij (1 - np_prod ps_values);
     prr_nr := calculate_prr_dij (1 - np_prod ps_dik_nr_values);
     pir_6G := calculate_pir_dij (1 - np_prod ps_values) rri;
     pir_nr := calculate_pir_dij (1 - np_prod ps_dik_nr_values) rri |}.

(** The inner loop at one outer distance: the list of [(ps_dik, ps_dik_nr)]. *)
Definition neighbor_samples (c : config) (dv : derived) (st : sensing) (d_ij : Z)
  : outcome (list (float * float)) :=
  d_int <- calculate_d_int (P_t dv) (K_0 dv) (sinr_threshold dv)
                           (IZR (d_ij + 1)) (alpha c) (N_0 dv) ;;
  d_ik_range <- neighbor_range (beta c) d_ij d_int ;;
  mapM (neighbor_sample c dv st) d_ik_range.

(** One pass of the outer loop. *)
Definition distance_sample (c : config) (dv : derived) (st : sensing) (d_ij : Z)
  : outcome sample :=
  pairs <- neighbor_samples c dv st d_ij ;;
  let ps_values := map fst pairs in
  let ps_dik_nr_values := map snd pairs in
  Returns (aggregate (rri c) ps_values ps_dik_nr_values).

(** The four result lists, one entry per pass of the outer loop. *)
Definition collect (rows : list sample) : results :=
  {| prr_spc6G := map prr_6G rows;
     prr_nrv2x := map prr_nr rows;
     pir_spc6G := map pir_6G rows;
     pir_nrv2x := map pir_nr rows |}.

Definition calculate_analytical_results (fuel : nat) (c : config) : outcome results :=
  '(dv, distances) <- initialise c ;;
  st <- threshold_adjust fuel c dv ;;
  rows <- mapM (distance_sample c dv st) distances ;;
  Returns (collect rows).

End Driver.

(* ================================================================== *)
(** ** Auxiliary definitions used by the statements *)

(** Order on [xreal]: [float('inf')] is above every float. *)
Definition xreal_le (a b : xreal) : Prop :=
  match a, b with
  | Finite x, Finite y => x <= y
  | _, PlusInf => True
  | PlusInf, Finite _ => False
  end.

(** A value that is a probability. *)
Definition in_unit (x : R) : Prop := 0 <= x <= 1.

(** Every per-neighbor success probability that a run of the driver computes,
    of either variant and at every outer distance, is a probability. *)
Definition neighbor_probabilities_in_unit {SF : SpecialFunctions}
    (fuel : nat) (c : config) : Prop :=
  forall dv distances st d_ij pairs,
    initialise c = Returns (dv, distances) ->
    threshold_adjust fuel c dv = Returns st ->
    In d_ij distances ->
    neighbor_samples c dv st d_ij = Returns pairs ->
    Forall (fun ps => in_unit (fst ps) /\ in_unit (snd ps)) pairs.

(** The same call with another [p_res_ik]. *)
Definition with_p_res_ik (p : float) (c : config) : config :=
  {| channels := channels c; sinr_threshold_dB := sinr_threshold_dB c;
     beta := beta c; P_t_dB := P_t_dB c; fc := fc c; alpha := alpha c;
     P_s_dB := P_s_dB c; N_0_dB := N_0_dB c; maxchannel := maxchannel c;
     slot := slot c; s := s c; rc1 := rc1 c; rc2 := rc2 c; rri := rri c;
     p_res_ik := p;
     max_distance := max_distance c; step_distance := step_distance c |}.

(** A function with the range of [erf], odd and increasing; it instantiates
    [SpecialFunctions] where a statement is checked on closed data. *)
Definition soft_sign (x : R) : R := x / (1 + Rabs x).

Lemma soft_sign_range : forall x, -1 < soft_sign x < 1.
Proof.
  intro x. unfold soft_sign.
  assert (Hpos : 0 < 1 + Rabs x) by (pose proof (Rabs_pos x); lra).
  assert (Hx : - Rabs x <= x <= Rabs x).
  { split; [ pose proof (Rle_abs (- x)) as H; rewrite Rabs_Ropp in H; lra
           | apply Rle_abs ]. }
  split.
  - apply Rmult_lt_reg_r with (1 + Rabs x); [ exact Hpos | ].
    unfold Rdiv. rewrite Rmult_assoc, Rinv_l by lra. lra.
  - apply Rmult_lt_reg_r with (1 + Rabs x); [ exact Hpos | ].
    unfold Rdiv. rewrite Rmult_assoc, Rinv_l by lra. lra.
Qed.

Definition soft_sign_functions : SpecialFunctions :=
  {| erf := soft_sign; erf_range := soft_sign_range |}.

(** A small cell: four resources per reservation interval ([maxchannel = 4],
    [rri = slot]), one vehicle per 8 km, a receiver sensitivity of -40 dB and
    the single outer distance 0.  [sparse_cell n] uses [n] channels. *)
Definition sparse_cell (n : float) : config :=
  {| channels := n; sinr_threshold_dB := 0; beta := / 8000; P_t_dB := 0;
     fc := 1; alpha := 1; P_s_dB := - 40; N_0_dB := - 42.4; maxchannel := 4;
     slot := 1; s := 1 / 2; rc1 := 1; rc2 := 1; rri := 1; p_res_ik := 0.1;
     max_distance := 0; step_distance := 1 |}.

(** The locals of [sparse_cell n] before the threshold loop, and the values
    the loop leaves there. *)
Definition sparse_cell_locals (dv : derived) : Prop :=
  P_t dv = 1 /\ K_0_dB dv = - 32.4 /\ 0 < K_0 dv /\ N_0 dv = K_0 dv / 10 /\
  sinr_threshold dv = 1 /\ R_tot dv = 4.

Definition sparse_cell_sensing {SF : SpecialFunctions} (dv : derived) (st : sensing) : Prop :=
  spsr st = SPSR (/ 8000) 0 (cur_P_s_dB st) (K_0_dB dv) 1 /\ 0 < RU st <= 2.

(** The arguments of the end-to-end scenario of the specification, with a
    [max_distance] that [step_distance] does not divide. *)
Definition scenario_210 : config :=
  {| channels := 2; sinr_threshold_dB := 5; beta := 0.05; P_t_dB := 23;
     fc := 5.9; alpha := 2.5; P_s_dB := - 90; N_0_dB := - 95; maxchannel := 100;
     slot := 0.001; s := 0.5; rc1 := 2; rc2 := 3; rri := 0.1; p_res_ik := 0.1;
     max_distance := 210; step_distance := 50 |}.

(** The end-to-end scenario of the specification. *)
Definition scenario_200 : config :=
  {| channels := 2; sinr_threshold_dB := 5; beta := 0.05; P_t_dB := 23;
     fc := 5.9; alpha := 2.5; P_s_dB := - 90; N_0_dB := - 95; maxchannel := 100;
     slot := 0.001; s := 0.5; rc1 := 2; rc2 := 3; rri := 0.1; p_res_ik := 0.1;
     max_distance := 200; step_distance := 50 |}.

(** The same scenario with two vehicles per metre. *)
Definition dense_scenario : config :=
  {| channels := 2; sinr_threshold_dB := 5; beta := 2; P_t_dB := 23;
     fc := 5.9; alpha := 2.5; P_s_dB := - 90; N_0_dB := - 95; maxchannel := 100;
     slot := 0.001; s := 0.5; rc1 := 2; rc2 := 3; rri := 0.1; p_res_ik := 0.1;
     max_distance := 200; step_distance := 50 |}.

(** A cell whose threshold loop has work to do: each vehicle uses half of the
    four resources ([channels = 2]), there is one vehicle per kilometre, and
    the link budget [P_t_dB + K_0_dB - P_s_dB] is 40 dB, so that the whole
    window of [SPSR] is sensed at the initial sensitivity. *)
Definition loop_cell : config :=
  {| channels := 2; sinr_threshold_dB := 0; beta := / 1000; P_t_dB := 23;
     fc := 1; alpha := 1; P_s_dB := - 49.4; N_0_dB := - 42.4; maxchannel := 4;
     slot := 1; s := 1 / 2; rc1 := 1; rc2 := 1; rri := 1; p_res_ik := 0.1;
     max_distance := 0; step_distance := 1 |}.

(** A cell with the resource grid of the end-to-end scenario (100 channels,
    100 slots per reservation interval, two channels per vehicle), one
    vehicle every 2 m and the outer distances 0, 1 and 2. *)
Definition shared_cell : config :=
  {| channels := 2; sinr_threshold_dB := 0; beta := 0.5; P_t_dB := 0;
     fc := 1; alpha := 1; P_s_dB := - 40; N_0_dB := - 42.4; maxchannel := 100;
     slot := 0.001; s := 0.5; rc1 := 2; rc2 := 3; rri := 0.1; p_res_ik := 0.1;
     max_distance := 2; step_distance := 1 |}.

(** The locals of [shared_cell] before the threshold loop. *)
Definition shared_cell_locals (dv : derived) : Prop :=
  P_t dv = 1 /\ K_0_dB dv = - 32.4 /\ 0 < K_0 dv /\ N_0 dv = K_0 dv / 10 /\
  sinr_threshold dv = 1 /\ R_tot dv = 10000.

(* ================================================================== *)
(** ** Outcomes: inversion lemmas *)

Lemma bind_returns {A B : Type} (m : outcome A) (k : A -> outcome B) (b : B) :
  bind m k = Returns b -> exists a, m = Returns a /\ k a = Returns b.
Proof.
  destruct m as [a | | ]; simpl; intro H; try discriminate.
  exists a. split; [ reflexivity | exact H ].
Qed.

Lemma mapM_returns {A B : Type} (f : A -> outcome B) (l : list A) (bs : list B) :
  mapM f l = Returns bs -> Forall2 (fun a b => f a = Returns b) l bs.
Proof.
  revert bs. induction l as [ | a l IH ]; simpl; intros bs H.
  - inversion H. constructor.
  - apply bind_returns in H. destruct H as [b [Hb H]].
    apply bind_returns in H. destruct H as [bs' [Hbs H]].
    inversion H. subst. constructor; [ exact Hb | apply IH; exact Hbs ].
Qed.

Lemma mapM_of_Forall2 {A B : Type} (f : A -> outcome B) (l : list A) (bs : list B) :
  Forall2 (fun a b => f a = Returns b) l bs -> mapM f l = Returns bs.
Proof.
  induction 1 as [ | a b l bs Hab _ IH ]; simpl.
  - reflexivity.
  - rewrite Hab. simpl. rewrite IH. reflexivity.
Qed.

Ltac invert_bind H :=
  let a := fresh "v" in
  let Ha := fresh "E" in
  apply bind_returns in H; destruct H as [a [Ha H]].

(* ================================================================== *)
(** ** Sums and products of sequences *)

Lemma np_sum_map_nonneg {A : Type} (f : A -> R) (l : list A) :
  (forall a, 0 <= f a) -> 0 <= np_sum (map f l).
Proof.
  intro Hf. induction l as [ | a l IH ]; simpl.
  - lra.
  - specialize (Hf a). lra.
Qed.

Lemma np_sum_map_pos {A : Type} (f : A -> R) (l : list A) :
  (forall a, 0 < f a) -> l <> [] -> 0 < np_sum (map f l).
Proof.
  intros Hf Hl. destruct l as [ | a l ]; [ congruence | ]. simpl.
  assert (0 <= np_sum (map f l)) by (apply np_sum_map_nonneg; intro b; specialize (Hf b); lra).
  specialize (Hf a). lra.
Qed.

Lemma np_sum_map_le {A : Type} (f g : A -> R) (l : list A) :
  (forall a, f a <= g a) -> np_sum (map f l) <= np_sum (map g l).
Proof.
  intro Hfg. induction l as [ | a l IH ]; simpl.
  - lra.
  - specialize (Hfg a). lra.
Qed.

Lemma np_sum_map_le_length {A : Type} (f : A -> R) (l : list A) :
  (forall a, f a <= 1) -> np_sum (map f l) <= INR (length l).
Proof.
  intro Hf. induction l as [ | a l IH ].
  - simpl. lra.
  - change (np_sum (map f (a :: l))) with (f a + np_sum (map f l)).
    change (length (a :: l)) with (S (length l)). rewrite S_INR.
    specialize (Hf a). lra.
Qed.

Lemma np_prod_in_unit (l : list R) :
  Forall in_unit l -> in_unit (np_prod l).
Proof.
  unfold in_unit. induction 1 as [ | x l Hx _ IH ]; simpl.
  - lra.
  - nra.
Qed.

Lemma np_prod_le (l1 l2 : list R) :
  Forall2 (fun x y => 0 <= x <= y) l1 l2 -> 0 <= np_prod l1 <= np_prod l2.
Proof.
  induction 1 as [ | x y l1 l2 Hxy _ IH ]; simpl.
  - lra.
  - nra.
Qed.

Lemma np_arange_window_length : length (np_arange (-2000) 2000) = 4000%nat.
Proof.
  unfold np_arange, range_elements. rewrite length_map, length_seq. reflexivity.
Qed.

Lemma np_arange_window_nonempty : np_arange (-2000) 2000 <> [].
Proof.
  intro H. pose proof np_arange_window_length as L. rewrite H in L. discriminate.
Qed.

(* ================================================================== *)
(** ** Facts about [calculations.py] *)

Section CalculationsFacts.

Context {SF : SpecialFunctions}.

Lemma PSR_range (d Pt_dBm P_sen_dBm K0_dB gamma : R) :
  0 < PSR d Pt_dBm P_sen_dBm K0_dB gamma < 1.
Proof.
  unfold PSR, PathLoss.
  match goal with |- context [erf ?x] => pose proof (erf_range x) end.
  lra.
Qed.

(** The blend of the correlated and the independent estimate is non-negative
    for any positive correlation factor, also above 1. *)
Lemma common_psr_nonneg (cf a b : R) :
  0 < cf -> 0 < a < 1 -> 0 < b < 1 ->
  0 <= cf * Rmin a b + (1 - cf) * a * b.
Proof.
  intros Hc Ha Hb.
  assert (0 <= a * b) by (apply Rmult_le_pos; lra).
  unfold Rmin. destruct (Rle_dec a b).
  - assert (0 <= cf * a * (1 - b)) by (repeat apply Rmult_le_pos; lra). lra.
  - assert (0 <= cf * b * (1 - a)) by (repeat apply Rmult_le_pos; lra). lra.
Qed.

(** With a correlation factor of at most 1 the blend is at most [psr_i]. *)
Lemma common_psr_le (cf a b : R) :
  0 < cf <= 1 -> 0 < a < 1 -> 0 < b < 1 ->
  cf * Rmin a b + (1 - cf) * a * b <= a.
Proof.
  intros Hc Ha Hb.
  assert (0 <= (1 - cf) * a * (1 - b)) by (repeat apply Rmult_le_pos; lra).
  unfold Rmin. destruct (Rle_dec a b).
  - lra.
  - assert (0 <= cf * (a - b)) by (apply Rmult_le_pos; lra). lra.
Qed.

Lemma SPSR_bounds (beta P_t_dB P_s_dB K_0_dB alpha : R) :
  0 < beta ->
  0 < SPSR beta P_t_dB P_s_dB K_0_dB alpha <= beta * 4000.
Proof.
  intro Hb. unfold SPSR. split.
  - apply Rmult_lt_0_compat; [ exact Hb | ].
    apply np_sum_map_pos; [ intro a; apply PSR_range | apply np_arange_window_nonempty ].
  - apply Rmult_le_compat_l; [ lra | ].
    replace 4000 with (INR (length (np_arange (-2000) 2000))).
    + apply np_sum_map_le_length. intro a.
      pose proof (PSR_range (IZR a) P_t_dB P_s_dB K_0_dB alpha). lra.
    + rewrite np_arange_window_length. rewrite INR_IZR_INZ. reflexivity.
Qed.

Lemma common_neighbors_le_SPSR (beta P_t_dB P_s_dB K_0_dB alpha d_i_k : R) :
  0 <= beta -> 0 <= d_i_k ->
  common_neighbors beta P_t_dB P_s_dB K_0_dB alpha d_i_k
  <= SPSR beta P_t_dB P_s_dB K_0_dB alpha.
Proof.
  intros Hb Hd. unfold common_neighbors, SPSR, rho.
  apply Rmult_le_compat_l; [ exact Hb | ].
  apply np_sum_map_le. intro a.
  apply common_psr_le; try apply PSR_range.
  split; [ apply exp_pos | ].
  rewrite <- exp_0. destruct (Req_dec_T d_i_k 0) as [-> | Hne].
  - rewrite Ropp_0. lra.
  - left. apply exp_increasing. lra.
Qed.

Lemma SPSR_nonneg (beta P_t_dB P_s_dB K_0_dB alpha : R) :
  0 <= beta -> 0 <= SPSR beta P_t_dB P_s_dB K_0_dB alpha.
Proof.
  intro Hb. unfold SPSR. apply Rmult_le_pos; [ exact Hb | ].
  apply np_sum_map_nonneg. intro a.
  pose proof (PSR_range (IZR a) P_t_dB P_s_dB K_0_dB alpha). lra.
Qed.

Lemma common_neighbors_nonneg (beta P_t_dB P_s_dB K_0_dB alpha d_i_k : R) :
  0 <= beta -> 0 <= common_neighbors beta P_t_dB P_s_dB K_0_dB alpha d_i_k.
Proof.
  intro Hb. unfold common_neighbors, rho. apply Rmult_le_pos; [ exact Hb | ].
  apply np_sum_map_nonneg. intro a.
  apply common_psr_nonneg; [ apply exp_pos | apply PSR_range | apply PSR_range ].
Qed.

(** C8.  For every [beta >= 0] and all real values of the other arguments,
    [SPSR] is non-negative, and so is [common_neighbors] at every real
    separation [d_i_k], negative ones (correlation factor above 1) included. *)
Theorem SPSR_common_neighbors_nonneg (beta P_t_dB P_s_dB K_0_dB alpha d_i_k : R) :
  0 <= beta ->
  0 <= SPSR beta P_t_dB P_s_dB K_0_dB alpha /\
  0 <= common_neighbors beta P_t_dB P_s_dB K_0_dB alpha d_i_k.
Proof.
  intro Hb. split; [ apply SPSR_nonneg | apply common_neighbors_nonneg ]; exact Hb.
Qed.

(** C9.  [rho] returns [exp(-d_i_k)] whatever its second argument is: two
    calls that differ only in [sigma] agree, so the correlation factor that
    [common_neighbors] obtains from [rho d_i_k 3] does not depend on the 3. *)
Theorem rho_ignores_sigma (d_i_k sigma sigma' : R) :
  rho d_i_k sigma = exp (- d_i_k) /\ rho d_i_k sigma = rho d_i_k sigma'.
Proof.
  split; reflexivity.
Qed.

(** C5.  [calculate_pir_dij] returns [float('inf')] exactly when the outage
    is at least 1, and [RRI / (1 - p_o_dij)] below 1; at outage 0 it returns
    [RRI] (for every [RRI], positive ones in particular). *)
Theorem calculate_pir_dij_cases (p_o_dij RRI : R) :
  (calculate_pir_dij p_o_dij RRI = PlusInf <-> p_o_dij >= 1) /\
  (p_o_dij < 1 -> calculate_pir_dij p_o_dij RRI = Finite (RRI / (1 - p_o_dij))) /\
  calculate_pir_dij 0 RRI = Finite RRI.
Proof.
  unfold calculate_pir_dij. repeat split.
  - destruct (Rge_dec p_o_dij 1) as [H | H]; [ intros _; exact H | discriminate ].
  - intro H. destruct (Rge_dec p_o_dij 1); [ reflexivity | contradiction ].
  - intro H. destruct (Rge_dec p_o_dij 1); [ lra | reflexivity ].
  - destruct (Rge_dec 0 1); [ lra | ]. f_equal. field.
Qed.

(** C7.  For a fixed [RRI], a reservation interval and hence not negative,
    [calculate_pir_dij] is non-decreasing in the outage probability: for
    [o1 <= o2] with both below 1, the PIR at [o1] is at most the PIR at
    [o2]. *)
Theorem calculate_pir_dij_monotone (RRI o1 o2 : R) :
  0 <= RRI -> o1 <= o2 -> o2 < 1 ->
  xreal_le (calculate_pir_dij o1 RRI) (calculate_pir_dij o2 RRI).
Proof.
  intros HR H12 H2. unfold calculate_pir_dij.
  destruct (Rge_dec o1 1); [ lra | ]. destruct (Rge_dec o2 1); [ lra | ].
  simpl. unfold Rdiv. apply Rmult_le_compat_l; [ exact HR | ].
  apply Rinv_le_contravar; lra.
Qed.

End CalculationsFacts.

(** C7, witness: [RRI = 1], outages 0 and 1/2. *)
Lemma calculate_pir_dij_monotone_witness :
  xreal_le (calculate_pir_dij 0 1) (calculate_pir_dij (1 / 2) 1).
Proof.
  apply (calculate_pir_dij_monotone 1 0 (1 / 2)); lra.
Defined.

(** Outside the domain of the model the order is reversed: the function does
    not check the sign of [RRI], and at [RRI = -1] the outages 0 and 1/2 give
    -1 and -2. *)
Lemma calculate_pir_dij_not_monotone :
  (0 <= 1 / 2 /\ 1 / 2 < 1) /\
  calculate_pir_dij 0 (-1) = Finite (-1) /\
  calculate_pir_dij (1 / 2) (-1) = Finite (-2) /\
  ~ xreal_le (calculate_pir_dij 0 (-1)) (calculate_pir_dij (1 / 2) (-1)).
Proof.
  assert (E0 : calculate_pir_dij 0 (-1) = Finite (-1)).
  { unfold calculate_pir_dij. destruct (Rge_dec 0 1); [ lra | ]. f_equal. field. }
  assert (E1 : calculate_pir_dij (1 / 2) (-1) = Finite (-2)).
  { unfold calculate_pir_dij. destruct (Rge_dec (1 / 2) 1); [ lra | ]. f_equal. field. }
  repeat split; try lra; try assumption.
  rewrite E0, E1. simpl. lra.
Qed.

(** C8, witness: [beta = 1/2], separation -1. *)
Lemma SPSR_common_neighbors_nonneg_witness :
  0 <= @SPSR soft_sign_functions (1 / 2) 23 (- 90) (- 47) 2 /\
  0 <= @common_neighbors soft_sign_functions (1 / 2) 23 (- 90) (- 47) 2 (- 1).
Proof.
  apply (@SPSR_common_neighbors_nonneg soft_sign_functions (1 / 2) 23 (- 90) (- 47) 2 (- 1)).
  lra.
Defined.

(* ================================================================== *)
(** ** Truncation and ranges *)

Lemma py_int_nonneg (x : R) (z : Z) :
  0 <= x -> IZR z <= x < IZR z + 1 -> py_int x = z.
Proof.
  intros Hx Hz. unfold py_int. destruct (Rle_dec 0 x); [ | contradiction ].
  symmetry. apply Int_part_spec. lra.
Qed.

Lemma py_int_neg (x : R) (z : Z) :
  x < 0 -> IZR z - 1 < x <= IZR z -> py_int x = z.
Proof.
  intros Hx Hz. unfold py_int. destruct (Rle_dec 0 x); [ lra | ].
  assert (E : (- z)%Z = Int_part (- x)).
  { apply Int_part_spec. rewrite opp_IZR. lra. }
  rewrite <- E. lia.
Qed.

Lemma py_int_IZR (z : Z) : py_int (IZR z) = z.
Proof.
  destruct (Rle_dec 0 (IZR z)) as [H | H].
  - apply py_int_nonneg; [ exact H | lra ].
  - apply py_int_neg; lra.
Qed.

(** For [x >= 1], [int(x)] is the floor of [x] and is at least 1. *)
Lemma py_int_ge_1 (x : R) :
  1 <= x -> py_int x = Int_part x /\ (1 <= Int_part x)%Z.
Proof.
  intro Hx. split.
  - unfold py_int. destruct (Rle_dec 0 x); [ reflexivity | lra ].
  - destruct (base_Int_part x) as [_ Hlow].
    assert (0 < IZR (Int_part x)) by lra.
    apply lt_0_IZR in H. lia.
Qed.

(** For [0 < x < 1], [int(x)] is 0. *)
Lemma py_int_below_1 (x : R) : 0 <= x < 1 -> py_int x = 0%Z.
Proof.
  intro Hx. apply py_int_nonneg; lra.
Qed.

Lemma range_elements_nth (start stop step : Z) (k : nat) (x : Z) :
  nth_error (range_elements start stop step) k = Some x ->
  x = (start + Z.of_nat k * step)%Z /\
  (Z.of_nat k < range_length start stop step)%Z.
Proof.
  unfold range_elements. intro H.
  rewrite nth_error_map in H.
  destruct (nth_error (seq 0 (Z.to_nat (range_length start stop step))) k) as [j | ] eqn:E;
    [ | discriminate ].
  assert (Hk : (k < length (seq 0 (Z.to_nat (range_length start stop step))))%nat)
    by (apply nth_error_Some; congruence).
  rewrite length_seq in Hk.
  rewrite nth_error_seq in E.
  apply Nat.ltb_lt in Hk as Hb. rewrite Hb in E.
  simpl in E. inversion E. subst j. simpl in H. inversion H.
  split; [ reflexivity | lia ].
Qed.

(** With a positive step every element of a range is below [stop]. *)
Lemma range_elements_below_stop (start stop step x : Z) :
  (0 < step)%Z -> In x (range_elements start stop step) -> (start <= x < stop)%Z.
Proof.
  intros Hs Hin. apply In_nth_error in Hin. destruct Hin as [k Hk].
  apply range_elements_nth in Hk. destruct Hk as [-> Hlen].
  unfold range_length in Hlen.
  apply Z.ltb_lt in Hs as Hb. rewrite Hb in Hlen.
  destruct (start <? stop)%Z eqn:E; [ | lia ].
  apply Z.ltb_lt in E.
  assert (Hq : (Z.of_nat k <= (stop - start - 1) / step)%Z) by lia.
  assert (Hm : (step * ((stop - start - 1) / step) <= stop - start - 1)%Z)
    by (apply Z.mul_div_le; lia).
  nia.
Qed.

(** C3, as amended.  For [0 < beta <= 1] the inner range of every outer
    distance runs from [int(d_ij - d_int)] to [int(d_ij + d_int)] with the
    step [int(1 / beta)], which is [max(1, floor(1 / beta))] and at least 1. *)
Theorem neighbor_range_step (beta : R) (d_ij : Z) (d_int : R) :
  0 < beta <= 1 ->
  py_int (1 / beta) = Z.max 1 (Int_part (1 / beta)) /\
  (1 <= py_int (1 / beta))%Z /\
  neighbor_range beta d_ij d_int =
    Returns (range_elements (py_int (IZR d_ij - d_int)) (py_int (IZR d_ij + d_int))
                            (Z.max 1 (Int_part (1 / beta)))).
Proof.
  intros [Hpos Hle].
  assert (H1 : 1 <= 1 / beta).
  { apply Rmult_le_reg_r with beta; [ exact Hpos | ].
    unfold Rdiv. rewrite Rmult_assoc, Rinv_l by lra. lra. }
  destruct (py_int_ge_1 _ H1) as [Eint Hge].
  assert (Emax : py_int (1 / beta) = Z.max 1 (Int_part (1 / beta))) by lia.
  split; [ exact Emax | ]. split; [ lia | ].
  unfold neighbor_range, py_div.
  destruct (Req_dec_T beta 0) as [E0 | _]; [ lra | ]. simpl.
  unfold py_range. rewrite Emax.
  destruct (Z.max 1 (Int_part (1 / beta)) =? 0)%Z eqn:E; [ | reflexivity ].
  apply Z.eqb_eq in E. lia.
Qed.

(** Above [beta = 1] the step [int(1 / beta)] is 0 and [range] refuses it. *)
Lemma neighbor_range_dense (beta : R) (d_ij : Z) (d_int : R) :
  1 < beta -> py_int (1 / beta) = 0%Z /\ neighbor_range beta d_ij d_int = Fails.
Proof.
  intro Hb.
  assert (H : 0 <= 1 / beta < 1).
  { split.
    - apply Rlt_le. apply Rdiv_lt_0_compat; lra.
    - apply Rmult_lt_reg_r with beta; [ lra | ].
      unfold Rdiv. rewrite Rmult_assoc, Rinv_l by lra. lra. }
  apply py_int_below_1 in H. split; [ exact H | ].
  unfold neighbor_range, py_div.
  destruct (Req_dec_T beta 0) as [E0 | _]; [ lra | ]. simpl.
  unfold py_range. rewrite H. reflexivity.
Qed.

(** C3, witness: [beta = 1/20], outer distance 50, [d_int = 7/2]. *)
Lemma neighbor_range_step_witness :
  py_int (1 / (1 / 20)) = Z.max 1 (Int_part (1 / (1 / 20))) /\
  (1 <= py_int (1 / (1 / 20)))%Z /\
  neighbor_range (1 / 20) 50 (7 / 2) =
    Returns (range_elements (py_int (IZR 50 - 7 / 2)) (py_int (IZR 50 + 7 / 2))
                            (Z.max 1 (Int_part (1 / (1 / 20))))).
Proof.
  apply (neighbor_range_step (1 / 20) 50 (7 / 2)). lra.
Defined.

(** C3 as stated fails above [beta = 1]: at [beta = 2] the step is
    [int(1/2) = 0], not [max(1, floor(1/2)) = 1], and no range is built. *)
Lemma neighbor_range_no_clamp :
  0 < 2 /\
  py_int (1 / 2) = 0%Z /\
  Z.max 1 (Int_part (1 / 2)) = 1%Z /\
  neighbor_range 2 0 1 = Fails.
Proof.
  destruct (neighbor_range_dense 2 0 1) as [Hint Hfail]; [ lra | ].
  split; [ lra | ]. split; [ exact Hint | ]. split; [ | exact Hfail ].
  assert (E : 0%Z = Int_part (1 / 2)) by (apply Int_part_spec; lra).
  rewrite <- E. reflexivity.
Qed.

(** C4 at [max_distance = 210], [step_distance = 50]: the outer sequence
    ends with 250, above [max_distance]. *)
Theorem outer_distances_overshoot :
  outer_distances scenario_210 = Returns [0; 50; 100; 150; 200; 250]%Z /\
  (max_distance scenario_210 < 250)%Z.
Proof.
  split; [ reflexivity | simpl; lia ].
Qed.

(* ================================================================== *)
(** ** The driver: structure of a returning run *)

Section DriverRuns.

Context {SF : SpecialFunctions}.

Lemma run_returns (fuel : nat) (c : config) (out : results) :
  calculate_analytical_results fuel c = Returns out ->
  exists dv distances st rows,
    initialise c = Returns (dv, distances) /\
    threshold_adjust fuel c dv = Returns st /\
    Forall2 (fun d_ij row => distance_sample c dv st d_ij = Returns row) distances rows /\
    out = collect rows.
Proof.
  unfold calculate_analytical_results. intro H.
  invert_bind H. destruct v as [dv distances].
  invert_bind H. invert_bind H. inversion H.
  exists dv, distances, v, v0.
  repeat split; try assumption. apply mapM_returns. assumption.
Qed.

Lemma run_of_parts (fuel : nat) (c : config) dv distances st rows :
  initialise c = Returns (dv, distances) ->
  threshold_adjust fuel c dv = Returns st ->
  Forall2 (fun d_ij row => distance_sample c dv st d_ij = Returns row) distances rows ->
  calculate_analytical_results fuel c = Returns (collect rows).
Proof.
  intros Hi Ht Hr. unfold calculate_analytical_results.
  rewrite Hi. simpl. rewrite Ht. simpl.
  rewrite (mapM_of_Forall2 _ _ _ Hr). reflexivity.
Qed.

Lemma initialise_distances (c : config) dv distances :
  initialise c = Returns (dv, distances) -> outer_distances c = Returns distances.
Proof.
  unfold initialise. intro H.
  invert_bind H. invert_bind H. invert_bind H. invert_bind H.
  inversion H. subst. assumption.
Qed.

(** X22.  When the driver returns, each of the four returned lists has one
    entry per element of the outer distance list. *)
Lemma results_aligned (fuel : nat) (c : config) (out : results) :
  calculate_analytical_results fuel c = Returns out ->
  exists distances,
    outer_distances c = Returns distances /\
    length (prr_spc6G out) = length distances /\
    length (prr_nrv2x out) = length distances /\
    length (pir_spc6G out) = length distances /\
    length (pir_nrv2x out) = length distances.
Proof.
  intro H. apply run_returns in H.
  destruct H as [dv [distances [st [rows [Hi [_ [Hr ->]]]]]]].
  exists distances. apply initialise_distances in Hi.
  apply Forall2_length in Hr. simpl. rewrite !length_map. auto.
Qed.

(* ------------------------------------------------------------------ *)
(** *** The threshold loop *)

Lemma sense_returns (c : config) (dv : derived) (P : R) (st : sensing) :
  sense c dv P = Returns st ->
  cur_P_s_dB st = P /\
  spsr st = SPSR (beta c) (P_t_dB c) P (K_0_dB dv) (alpha c) /\
  calculate_RU (R_tot dv) (spsr st) (channels c / R_tot dv) = Returns (RU st).
Proof.
  unfold sense, py_div. intro H.
  destruct (Req_dec_T (R_tot dv) 0); [ discriminate | ]. simpl in H.
  invert_bind H. inversion H. simpl. auto.
Qed.

(** One pass of the loop: while the bound is violated, [P_s_dB] grows by 3
    and [spsr], [RU] are recomputed. *)
Lemma adjust_threshold_step (fuel : nat) (c : config) (dv : derived) (st : sensing) :
  RU st > (1 - s c) * R_tot dv ->
  adjust_threshold (S fuel) c dv st =
  (st' <- sense c dv (cur_P_s_dB st + 3) ;; adjust_threshold fuel c dv st').
Proof.
  intro H. simpl. destruct (Rgt_dec (RU st) ((1 - s c) * R_tot dv)); [ reflexivity | contradiction ].
Qed.

Lemma adjust_threshold_exit (fuel : nat) (c : config) (dv : derived) (st : sensing) :
  ~ RU st > (1 - s c) * R_tot dv ->
  adjust_threshold fuel c dv st = Returns st.
Proof.
  intro H. destruct fuel; simpl;
    destruct (Rgt_dec (RU st) ((1 - s c) * R_tot dv)); try contradiction; reflexivity.
Qed.

Lemma adjust_threshold_returns (fuel : nat) (c : config) (dv : derived) :
  forall P0 st0 st,
    sense c dv P0 = Returns st0 ->
    adjust_threshold fuel c dv st0 = Returns st ->
    RU st <= (1 - s c) * R_tot dv /\
    exists n : nat,
      (n <= fuel)%nat /\
      sense c dv (P0 + 3 * INR n) = Returns st /\
      forall k : nat, (k < n)%nat ->
        exists stk, sense c dv (P0 + 3 * INR k) = Returns stk /\
                    RU stk > (1 - s c) * R_tot dv.
Proof.
  induction fuel as [ | fuel IH ]; intros P0 st0 st H0 H; simpl in H;
    destruct (Rgt_dec (RU st0) ((1 - s c) * R_tot dv)) as [Hgt | Hle];
    try discriminate.
  - inversion H. subst st. split; [ lra | ]. exists 0%nat.
    split; [ lia | ]. split; [ | intros k Hk; lia ].
    replace (P0 + 3 * INR 0) with P0 by (simpl; lra). exact H0.
  - invert_bind H. rename v into st1.
    destruct (sense_returns _ _ _ _ H0) as [EP _]. rewrite EP in E.
    destruct (IH _ _ _ E H) as [Hbound [n [Hn [Hs Hk]]]].
    split; [ exact Hbound | ]. exists (S n). split; [ lia | ]. split.
    + rewrite S_INR. replace (P0 + 3 * (INR n + 1)) with (P0 + 3 + 3 * INR n) by lra.
      exact Hs.
    + intros k Hlt. destruct k as [ | k ].
      * exists st0. split; [ | exact Hgt ].
        replace (P0 + 3 * INR 0) with P0 by (simpl; lra). exact H0.
      * destruct (Hk k) as [stk [Hsk Hrk]]; [ lia | ].
        exists stk. split; [ | exact Hrk ].
        rewrite S_INR. replace (P0 + 3 * (INR k + 1)) with (P0 + 3 + 3 * INR k) by lra.
        exact Hsk.
  - inversion H. subst st. split; [ lra | ]. exists 0%nat.
    split; [ lia | ]. split; [ | intros k Hk; lia ].
    replace (P0 + 3 * INR 0) with P0 by (simpl; lra). exact H0.
Qed.

(** If the bound first holds after [n] increments, any fuel of at least [n]
    makes the loop return there. *)
Lemma adjust_threshold_terminates (c : config) (dv : derived) (n : nat) :
  forall P0 st0 stn fuel,
    sense c dv P0 = Returns st0 ->
    (forall k : nat, (k < n)%nat ->
       exists stk, sense c dv (P0 + 3 * INR k) = Returns stk /\
                   RU stk > (1 - s c) * R_tot dv) ->
    sense c dv (P0 + 3 * INR n) = Returns stn ->
    RU stn <= (1 - s c) * R_tot dv ->
    (n <= fuel)%nat ->
    adjust_threshold fuel c dv st0 = Returns stn.
Proof.
  induction n as [ | n IH ]; intros P0 st0 stn fuel H0 Hk Hn Hb Hf.
  - replace (P0 + 3 * INR 0) with P0 in Hn by (simpl; lra).
    rewrite H0 in Hn. inversion Hn. subst stn.
    apply adjust_threshold_exit. lra.
  - destruct fuel as [ | fuel ]; [ lia | ].
    destruct (Hk 0%nat) as [st0' [Hs0 Hgt]]; [ lia | ].
    replace (P0 + 3 * INR 0) with P0 in Hs0 by (simpl; lra).
    rewrite H0 in Hs0. inversion Hs0. subst st0'.
    rewrite adjust_threshold_step by exact Hgt.
    destruct (sense_returns _ _ _ _ H0) as [EP _]. rewrite EP.
    assert (Hs1 : exists st1, sense c dv (P0 + 3) = Returns st1).
    { destruct n as [ | n' ].
      - exists stn. replace (P0 + 3) with (P0 + 3 * INR 1) by (simpl; lra). exact Hn.
      - destruct (Hk 1%nat) as [st1 [Hs1 _]]; [ lia | ].
        exists st1. replace (P0 + 3) with (P0 + 3 * INR 1) by (simpl; lra). exact Hs1. }
    destruct Hs1 as [st1 Hs1]. rewrite Hs1. simpl.
    apply (IH (P0 + 3)); try assumption.
    + intros k Hlt. destruct (Hk (S k)) as [stk [Hsk Hrk]]; [ lia | ].
      exists stk. split; [ | exact Hrk ].
      rewrite S_INR in Hsk.
      replace (P0 + 3 + 3 * INR k) with (P0 + 3 * (INR k + 1)) by lra. exact Hsk.
    + rewrite S_INR in Hn.
      replace (P0 + 3 + 3 * INR n) with (P0 + 3 * (INR n + 1)) by lra. exact Hn.
    + lia.
Qed.

(** The loop returns as soon as some fuel reaches the first [P_s_dB] at which
    the bound holds. *)
Lemma threshold_adjust_terminates (c : config) (dv : derived) (n fuel : nat) (stn : sensing) :
  (forall k : nat, (k < n)%nat ->
     exists stk, sense c dv (P_s_dB c + 3 * INR k) = Returns stk /\
                 RU stk > (1 - s c) * R_tot dv) ->
  sense c dv (P_s_dB c + 3 * INR n) = Returns stn ->
  RU stn <= (1 - s c) * R_tot dv ->
  (n <= fuel)%nat ->
  threshold_adjust fuel c dv = Returns stn.
Proof.
  intros Hk Hn Hb Hf. unfold threshold_adjust.
  assert (H0 : exists st0, sense c dv (P_s_dB c) = Returns st0).
  { destruct n as [ | n' ].
    - exists stn. replace (P_s_dB c) with (P_s_dB c + 3 * INR 0) by (simpl; lra). exact Hn.
    - destruct (Hk 0%nat) as [st0 [Hs0 _]]; [ lia | ].
      exists st0. replace (P_s_dB c) with (P_s_dB c + 3 * INR 0) by (simpl; lra). exact Hs0. }
  destruct H0 as [st0 H0]. rewrite H0. simpl.
  apply (adjust_threshold_terminates c dv n (P_s_dB c)); assumption.
Qed.

(** C6.  If the threshold loop returns, then at its exit [RU <= (1 - s) * R],
    where [spsr] is [SPSR] at the final [P_s_dB] and [RU] is
    [calculate_RU(R, spsr, channels / R)]; the final [P_s_dB] is the initial
    one plus 3 dB for each pass, and before each pass the bound was violated
    by the values recomputed at that [P_s_dB].  While the bound is violated,
    one pass continues the loop from the values recomputed at [P_s_dB + 3]:
    the loop returns the values at the first [P_s_dB + 3 n] at which the
    bound holds, when the fuel allows [n] passes. *)
Theorem threshold_adjust_exit_bound (fuel : nat) (c : config) (dv : derived) (st : sensing) :
  (threshold_adjust fuel c dv = Returns st ->
   RU st <= (1 - s c) * R_tot dv /\
   spsr st = SPSR (beta c) (P_t_dB c) (cur_P_s_dB st) (K_0_dB dv) (alpha c) /\
   calculate_RU (R_tot dv) (spsr st) (channels c / R_tot dv) = Returns (RU st) /\
   exists n : nat,
     (n <= fuel)%nat /\
     cur_P_s_dB st = P_s_dB c + 3 * INR n /\
     forall k : nat, (k < n)%nat ->
       exists stk, sense c dv (P_s_dB c + 3 * INR k) = Returns stk /\
                   RU stk > (1 - s c) * R_tot dv) /\
  (forall (fuel' : nat) (st0 : sensing),
     RU st0 > (1 - s c) * R_tot dv ->
     adjust_threshold (S fuel') c dv st0 =
       (st1 <- sense c dv (cur_P_s_dB st0 + 3) ;; adjust_threshold fuel' c dv st1)) /\
  (forall (n : nat) (stn : sensing),
     (n <= fuel)%nat ->
     (forall k : nat, (k < n)%nat ->
        exists stk, sense c dv (P_s_dB c + 3 * INR k) = Returns stk /\
                    RU stk > (1 - s c) * R_tot dv) ->
     sense c dv (P_s_dB c + 3 * INR n) = Returns stn ->
     RU stn <= (1 - s c) * R_tot dv ->
     threshold_adjust fuel c dv = Returns stn).
Proof.
  split; [ | split ].
  - unfold threshold_adjust. intro H. invert_bind H. rename v into st0.
    destruct (adjust_threshold_returns _ _ _ _ _ _ E H) as [Hb [n [Hn [Hs Hk]]]].
    destruct (sense_returns _ _ _ _ Hs) as [EP [Espsr ERU]].
    split; [ exact Hb | ]. split; [ rewrite EP; exact Espsr | ].
    split; [ exact ERU | ].
    exists n. split; [ exact Hn | ]. split; [ exact EP | exact Hk ].
  - intros fuel' st0 Hgt. apply adjust_threshold_step. exact Hgt.
  - intros n stn Hn Hk Hs Hb.
    apply (threshold_adjust_terminates c dv n fuel stn); assumption.
Qed.

(** More fuel does not change a result. *)
Lemma threshold_adjust_fuel (fuel fuel' : nat) (c : config) (dv : derived) (st : sensing) :
  (fuel <= fuel')%nat ->
  threshold_adjust fuel c dv = Returns st ->
  threshold_adjust fuel' c dv = Returns st.
Proof.
  intros Hle H. unfold threshold_adjust in H. invert_bind H. rename v into st0.
  destruct (adjust_threshold_returns _ _ _ _ _ _ E H) as [Hb [n [Hn [Hs Hk]]]].
  apply (threshold_adjust_terminates c dv n fuel' st Hk Hs Hb). lia.
Qed.

Lemma calculate_analytical_results_fuel (fuel fuel' : nat) (c : config) (out : results) :
  (fuel <= fuel')%nat ->
  calculate_analytical_results fuel c = Returns out ->
  calculate_analytical_results fuel' c = Returns out.
Proof.
  intros Hle H. apply run_returns in H.
  destruct H as [dv [distances [st [rows [Hi [Ht [Hr ->]]]]]]].
  apply (run_of_parts fuel' c dv distances st rows Hi); [ | exact Hr ].
  apply (threshold_adjust_fuel fuel fuel'); assumption.
Qed.

(* ------------------------------------------------------------------ *)
(** *** [p_res_ik] *)

Lemma adjust_threshold_p_res_ik (fuel : nat) (p : R) (c : config) (dv : derived) :
  forall st,
    adjust_threshold fuel (with_p_res_ik p c) dv st = adjust_threshold fuel c dv st.
Proof.
  induction fuel as [ | fuel IH ]; intro st; simpl.
  - reflexivity.
  - destruct (Rgt_dec (RU st) ((1 - s c) * R_tot dv)); [ | reflexivity ].
    change (sense (with_p_res_ik p c) dv (cur_P_s_dB st + 3))
      with (sense c dv (cur_P_s_dB st + 3)).
    destruct (sense c dv (cur_P_s_dB st + 3)); simpl; [ apply IH | reflexivity | reflexivity ].
Qed.

(** The driver never reads its argument [p_res_ik]: the reuse factor handed
    to [calculate_ps_dik] is [RU / R]. *)
Lemma p_res_ik_unused (fuel : nat) (p : R) (c : config) :
  calculate_analytical_results fuel (with_p_res_ik p c) =
  calculate_analytical_results fuel c.
Proof.
  unfold calculate_analytical_results.
  change (initialise (with_p_res_ik p c)) with (initialise c).
  destruct (initialise c) as [[dv distances] | | ]; simpl; try reflexivity.
  unfold threshold_adjust.
  change (sense (with_p_res_ik p c) dv (P_s_dB (with_p_res_ik p c)))
    with (sense c dv (P_s_dB c)).
  destruct (sense c dv (P_s_dB c)) as [st0 | | ]; simpl; try reflexivity.
  rewrite adjust_threshold_p_res_ik.
  destruct (adjust_threshold fuel c dv st0) as [st | | ]; reflexivity.
Qed.

(** [calculate_ps_dik] itself is non-increasing in its second argument. *)
Lemma calculate_ps_dik_antitone (p_dik q1 q2 : R) :
  0 <= p_dik -> q1 <= q2 ->
  calculate_ps_dik p_dik q2 <= calculate_ps_dik p_dik q1.
Proof.
  intros Hp Hq. unfold calculate_ps_dik.
  assert (p_dik * q1 <= p_dik * q2) by (apply Rmult_le_compat_l; assumption). lra.
Qed.

Lemma Forall2_Rle_refl (l : list R) : Forall2 Rle l l.
Proof.
  induction l; constructor; [ apply Rle_refl | assumption ].
Qed.

(** C1.  Two runs that differ only in [p_res_ik] return the same NR-V2X PRR
    sequence, and the run with the higher [p_res_ik] returns a 6G PRR that is
    lower or equal at every distance sample. *)
Theorem p_res_ik_effect (fuel : nat) (c : config) (p1 p2 : R) (out1 out2 : results) :
  p1 <= p2 ->
  calculate_analytical_results fuel (with_p_res_ik p1 c) = Returns out1 ->
  calculate_analytical_results fuel (with_p_res_ik p2 c) = Returns out2 ->
  prr_nrv2x out1 = prr_nrv2x out2 /\
  Forall2 Rle (prr_spc6G out2) (prr_spc6G out1).
Proof.
  intros _ H1 H2. rewrite p_res_ik_unused in H1, H2.
  rewrite H1 in H2. inversion H2. subst out2.
  split; [ reflexivity | apply Forall2_Rle_refl ].
Qed.

(* ------------------------------------------------------------------ *)
(** *** Aggregation *)

Lemma calculate_prr_dij_in_unit (p_o_dij : R) :
  in_unit (calculate_prr_dij p_o_dij) <-> in_unit p_o_dij.
Proof.
  unfold in_unit, calculate_prr_dij. lra.
Qed.

Lemma aggregate_in_unit (rri : R) (ps_values ps_dik_nr_values : list R) :
  (Forall in_unit ps_values -> in_unit (prr_6G (aggregate rri ps_values ps_dik_nr_values))) /\
  (Forall in_unit ps_dik_nr_values ->
   in_unit (prr_nr (aggregate rri ps_values ps_dik_nr_values))).
Proof.
  split; intro H; simpl; apply calculate_prr_dij_in_unit;
    apply np_prod_in_unit in H; unfold in_unit in *; lra.
Qed.

Lemma distance_sample_returns (c : config) (dv : derived) (st : sensing) (d_ij : Z) row :
  distance_sample c dv st d_ij = Returns row ->
  exists pairs,
    neighbor_samples c dv st d_ij = Returns pairs /\
    row = aggregate (rri c) (map fst pairs) (map snd pairs).
Proof.
  unfold distance_sample. intro H. invert_bind H. inversion H.
  exists v. split; [ assumption | reflexivity ].
Qed.

Lemma Forall_map_fst_snd (P : R -> Prop) (pairs : list (R * R)) :
  Forall (fun ps => P (fst ps) /\ P (snd ps)) pairs ->
  Forall P (map fst pairs) /\ Forall P (map snd pairs).
Proof.
  induction 1 as [ | ps pairs [Hf Hs] _ [IHf IHs] ]; simpl; split; constructor; assumption.
Qed.

(** When the driver returns and every per-neighbor success probability it
    computed lies in [0,1], every element of both returned PRR sequences
    lies in [0,1]; a PRR lies in [0,1] exactly when the outage probability
    it is computed from does. *)
Lemma prr_in_unit_of_neighbor_probabilities (fuel : nat) (c : config) (out : results) :
  calculate_analytical_results fuel c = Returns out ->
  neighbor_probabilities_in_unit fuel c ->
  Forall in_unit (prr_spc6G out) /\
  Forall in_unit (prr_nrv2x out) /\
  (forall p_o_dij, in_unit (calculate_prr_dij p_o_dij) <-> in_unit p_o_dij).
Proof.
  intros Hrun Hunit. apply run_returns in Hrun.
  destruct Hrun as [dv [distances [st [rows [Hi [Ht [Hr ->]]]]]]].
  assert (Hrows : Forall (fun row => in_unit (prr_6G row) /\ in_unit (prr_nr row)) rows).
  { assert (Hgen : forall ds rs,
               Forall2 (fun d_ij row => distance_sample c dv st d_ij = Returns row) ds rs ->
               (forall d, In d ds -> In d distances) ->
               Forall (fun row => in_unit (prr_6G row) /\ in_unit (prr_nr row)) rs);
      [ | apply (Hgen distances rows Hr); auto ].
    clear Hr rows.
    induction 1 as [ | d_ij row ds rows Hd _ IH ]; intro Hin; constructor.
    - apply distance_sample_returns in Hd. destruct Hd as [pairs [Hp ->]].
      assert (Hu := Hunit dv distances st d_ij pairs).
      destruct (Forall_map_fst_snd in_unit pairs) as [Hf Hs].
      { apply Hu; try assumption. apply Hin. left. reflexivity. }
      destruct (aggregate_in_unit (rri c) (map fst pairs) (map snd pairs)) as [A6 Anr].
      split; [ apply A6; exact Hf | apply Anr; exact Hs ].
    - apply IH. intros d Hd'. apply Hin. right. exact Hd'. }
  simpl. split; [ | split ].
  - apply Forall_map. eapply Forall_impl; [ | exact Hrows ]. intros row [H6 _]. exact H6.
  - apply Forall_map. eapply Forall_impl; [ | exact Hrows ]. intros row [_ Hn]. exact Hn.
  - exact calculate_prr_dij_in_unit.
Qed.

(* ------------------------------------------------------------------ *)
(** *** The two variants compared *)

Lemma calculate_ps_dik_reuse (p_dik p_res_ik : R) :
  calculate_ps_dik p_dik p_res_ik = 1 - p_dik * p_res_ik.
Proof.
  unfold calculate_ps_dik. ring.
Qed.

Lemma neighbor_sample_returns (c : config) (dv : derived) (st : sensing) (dik : Z) ps :
  neighbor_sample c dv st dik = Returns ps ->
  exists p_dik,
    collision_probability c dv st dik = Returns p_dik /\
    R_tot dv <> 0 /\
    fst ps = calculate_ps_dik p_dik (RU st / R_tot dv) /\
    snd ps = 1 - p_dik.
Proof.
  unfold neighbor_sample. intro H. invert_bind H. rename v into p_dik.
  unfold py_div in H. destruct (Req_dec_T (R_tot dv) 0) as [ | Hne ]; [ discriminate | ].
  simpl in H. inversion H. exists p_dik. simpl. auto.
Qed.

Lemma reuse_ratio_in_unit (RU R : float) :
  0 <= RU <= R -> R <> 0 -> 0 <= RU / R <= 1.
Proof.
  intros [H0 H1] Hne. assert (HR : 0 < R) by lra. split.
  - apply Rmult_le_pos; [ exact H0 | left; apply Rinv_0_lt_compat; exact HR ].
  - apply Rmult_le_reg_r with R; [ exact HR | ].
    unfold Rdiv. rewrite Rmult_assoc, Rinv_l by exact Hne. lra.
Qed.

Lemma neighbor_sample_order (c : config) (dv : derived) (st : sensing) (dik : Z) ps :
  0 <= RU st <= R_tot dv ->
  neighbor_sample c dv st dik = Returns ps ->
  in_unit (snd ps) ->
  0 <= snd ps <= fst ps.
Proof.
  intros HRU Hs Hu. apply neighbor_sample_returns in Hs.
  destruct Hs as [p_dik [_ [Hne [Ef Es]]]].
  pose proof (reuse_ratio_in_unit _ _ HRU Hne) as Hq.
  rewrite Ef, Es, calculate_ps_dik_reuse. unfold in_unit in Hu. rewrite Es in Hu.
  split; [ lra | ]. assert (p_dik * (RU st / R_tot dv) <= p_dik * 1)
    by (apply Rmult_le_compat_l; lra). lra.
Qed.

(** C10.  Under [0 <= RU <= R]: a per-neighbor sample with [p_dik >= 0] has
    the 6G success probability [calculate_ps_dik(p_dik, RU / R)], which is
    [1 - p_dik * (RU / R)] and at least the NR-V2X one, [1 - p_dik]; and at an
    outer distance where every per-neighbor success probability lies in
    [0,1], the 6G PRR is at least the NR-V2X PRR. *)
Theorem spc6G_at_least_nrv2x (c : config) (dv : derived) (st : sensing) :
  0 <= RU st <= R_tot dv ->
  (forall dik p_dik ps,
     collision_probability c dv st dik = Returns p_dik ->
     0 <= p_dik ->
     neighbor_sample c dv st dik = Returns ps ->
     fst ps = calculate_ps_dik p_dik (RU st / R_tot dv) /\
     calculate_ps_dik p_dik (RU st / R_tot dv) = 1 - p_dik * (RU st / R_tot dv) /\
     snd ps = 1 - p_dik /\
     1 - p_dik <= calculate_ps_dik p_dik (RU st / R_tot dv)) /\
  (forall d_ij pairs,
     neighbor_samples c dv st d_ij = Returns pairs ->
     Forall (fun ps => in_unit (fst ps) /\ in_unit (snd ps)) pairs ->
     prr_nr (aggregate (rri c) (map fst pairs) (map snd pairs)) <=
     prr_6G (aggregate (rri c) (map fst pairs) (map snd pairs))).
Proof.
  intro HRU. split.
  - intros dik p_dik ps Hp Hpos Hs. apply neighbor_sample_returns in Hs.
    destruct Hs as [p' [Hp' [Hne [Ef Es]]]].
    rewrite Hp in Hp'. inversion Hp'. subst p'.
    pose proof (reuse_ratio_in_unit _ _ HRU Hne) as Hq.
    rewrite calculate_ps_dik_reuse. repeat split; try assumption.
    + rewrite Ef. apply calculate_ps_dik_reuse.
    + assert (p_dik * (RU st / R_tot dv) <= p_dik * 1)
        by (apply Rmult_le_compat_l; lra). lra.
  - intros d_ij pairs Hs Hunit. unfold neighbor_samples in Hs.
    invert_bind Hs. invert_bind Hs. apply mapM_returns in Hs.
    assert (Hle : Forall2 (fun x y => 0 <= x <= y) (map snd pairs) (map fst pairs)).
    { clear E0. induction Hs as [ | dik ps ds pairs Hd _ IH ]; simpl; [ constructor | ].
      inversion Hunit as [ | ? ? [_ Hsnd] Hrest ]. subst.
      constructor; [ | apply IH; exact Hrest ].
      apply (neighbor_sample_order c dv st dik); assumption. }
    apply np_prod_le in Hle. simpl. unfold calculate_prr_dij. lra.
Qed.

End DriverRuns.

(* ================================================================== *)
(** ** A run evaluated: [sparse_cell n] *)

Lemma py_div_returns (x y : R) : y <> 0 -> py_div x y = Returns (x / y).
Proof.
  intro H. unfold py_div. destruct (Req_dec_T y 0); [ contradiction | reflexivity ].
Qed.

Lemma py_pow_positive (x y : R) : 0 < x -> py_pow x y = Returns (Rpower x y).
Proof.
  intro H. unfold py_pow. destruct (Rlt_dec 0 x); [ reflexivity | contradiction ].
Qed.

Lemma math_log10_positive (x : R) : 0 < x -> math_log10 x = Returns (Rlog 10 x).
Proof.
  intro H. unfold math_log10. destruct (Rlt_dec 0 x); [ reflexivity | contradiction ].
Qed.

Lemma Rlog_10_1 : Rlog 10 1 = 0.
Proof.
  unfold Rlog. rewrite ln_1. unfold Rdiv. apply Rmult_0_l.
Qed.

Lemma Rpower_10_0 : Rpower 10 (0 / 10) = 1.
Proof.
  replace (0 / 10) with 0 by lra. apply Rpower_O. lra.
Qed.

(** A power of a base in (0,1) with an exponent in (0, 1/2]. *)
Lemma Rpower_small_exponent (b y : R) :
  / 4 <= b < 1 -> 0 < y <= / 2 -> / 2 <= Rpower b y < 1.
Proof.
  intros [Hb1 Hb2] [Hy1 Hy2].
  assert (Hb : 0 < b) by lra.
  assert (Hln : ln b < 0) by (rewrite <- ln_1; apply ln_increasing; lra).
  unfold Rpower. split.
  - assert (Hhalf : / 2 <= exp (/ 2 * ln b)).
    { set (e := exp (/ 2 * ln b)).
      assert (He : 0 < e) by apply exp_pos.
      assert (Hsq : e * e = b).
      { unfold e. rewrite <- exp_plus.
        replace (/ 2 * ln b + / 2 * ln b) with (ln b) by lra.
        apply exp_ln. exact Hb. }
      destruct (Rle_lt_dec (/ 2) e) as [ | Hlt ]; [ assumption | ].
      assert (e * e < / 2 * / 2) by (apply Rmult_le_0_lt_compat; lra). lra. }
    apply Rle_trans with (exp (/ 2 * ln b)); [ exact Hhalf | ].
    destruct (Req_dec_T y (/ 2)) as [-> | Hne]; [ apply Rle_refl | ].
    left. apply exp_increasing. nra.
  - rewrite <- exp_0. apply exp_increasing. nra.
Qed.

Section SparseCell.
Context {SF : SpecialFunctions}.
Variable n : R.
Hypothesis Hn : 0 < n <= 3.

Lemma sparse_cell_initialise :
  exists dv, initialise (sparse_cell n) = Returns (dv, [0%Z]) /\ sparse_cell_locals dv.
Proof.
  unfold initialise, sparse_cell.
  cbn [fc P_s_dB P_t_dB N_0_dB sinr_threshold_dB maxchannel channels rri slot].
  rewrite math_log10_positive by lra. cbn [bind].
  change (outer_distances _) with (Returns (A := list Z) [0%Z]). cbn [bind].
  rewrite !py_div_returns by lra. cbn [bind].
  eexists. split; [ reflexivity | ].
  unfold sparse_cell_locals. cbn [P_t K_0_dB K_0 N_0 sinr_threshold R_tot].
  rewrite Rlog_10_1, Rpower_10_0.
  repeat split; try lra.
  - apply exp_pos.
  - replace (-42.4 / 10) with (- (32.4 + 20 * 0) / 10 + - (1)) by lra.
    rewrite Rpower_plus, Rpower_Ropp, Rpower_1 by lra. reflexivity.
Qed.

Variable dv : derived.
Hypothesis Hdv : sparse_cell_locals dv.

Lemma sparse_cell_sense (P : R) :
  exists st, sense (sparse_cell n) dv P = Returns st /\ cur_P_s_dB st = P /\ sparse_cell_sensing dv st.
Proof.
  destruct Hdv as [EPt [EK [HK [EN [Es ER]]]]].
  unfold sense. cbn [beta P_t_dB alpha channels sparse_cell]. rewrite ER.
  rewrite py_div_returns by lra. cbn [bind].
  unfold calculate_RU.
  rewrite py_pow_positive by lra. cbn [bind].
  eexists. split; [ reflexivity | ]. split; [ reflexivity | ].
  unfold sparse_cell_sensing. cbn [spsr RU cur_P_s_dB].
  pose proof (SPSR_bounds (/ 8000) 0 P (K_0_dB dv) 1) as Hs.
  assert (Hs' : 0 < SPSR (/ 8000) 0 P (K_0_dB dv) 1 <= / 2) by lra.
  split; [ reflexivity | ].
  pose proof (Rpower_small_exponent (1 - n / 4) _ ltac:(lra) Hs'). lra.
Qed.

Lemma sparse_cell_threshold (fuel : nat) :
  exists st, threshold_adjust fuel (sparse_cell n) dv = Returns st /\
             cur_P_s_dB st = - 40 /\ sparse_cell_sensing dv st.
Proof.
  destruct (sparse_cell_sense (- 40)) as [st [Hs [HP Hst]]].
  exists st. split; [ | split; assumption ].
  unfold threshold_adjust. change (P_s_dB (sparse_cell n)) with (- 40).
  rewrite Hs. cbn [bind]. apply adjust_threshold_exit.
  destruct Hdv as [_ [_ [_ [_ [_ ER]]]]]. rewrite ER.
  destruct Hst as [_ HRU]. change (s (sparse_cell n)) with (1 / 2). lra.
Qed.

Lemma sparse_cell_d_int :
  exists d_int,
    calculate_d_int (P_t dv) (K_0 dv) (sinr_threshold dv) (IZR (0 + 1))
                    (alpha (sparse_cell n)) (N_0 dv) = Returns d_int /\
    d_int = 10 / 9.
Proof.
  destruct Hdv as [EPt [EK [HK [EN [Es ER]]]]].
  unfold calculate_d_int. rewrite EPt, Es, EN.
  change (alpha (sparse_cell n)) with 1. change (IZR (0 + 1)) with 1.
  rewrite py_pow_positive by lra. cbn [bind].
  rewrite (Rpower_1 1) by lra.
  rewrite py_div_returns by lra. cbn [bind].
  assert (Eratio : 1 * K_0 dv / (1 * K_0 dv / (1 * 1) - K_0 dv / 10) = 10 / 9)
    by (field; lra).
  rewrite py_div_returns by lra. cbn [bind]. rewrite Eratio.
  rewrite py_div_returns by lra. cbn [bind].
  rewrite py_pow_positive by lra.
  eexists. split; [ reflexivity | ].
  replace (1 / 1) with 1 by lra. apply Rpower_1. lra.
Qed.

Lemma sparse_cell_neighbor_range :
  neighbor_range (beta (sparse_cell n)) 0 (10 / 9) = Returns [(-1)%Z].
Proof.
  unfold neighbor_range. change (beta (sparse_cell n)) with (/ 8000).
  rewrite py_div_returns by lra. cbn [bind].
  rewrite (py_int_neg (IZR 0 - 10 / 9) (-1)) by lra.
  rewrite (py_int_nonneg (IZR 0 + 10 / 9) 1) by lra.
  replace (1 / / 8000) with (IZR 8000) by (field; lra).
  rewrite py_int_IZR. reflexivity.
Qed.

Variable st : sensing.
Hypothesis Hst : sparse_cell_sensing dv st.

Lemma sparse_cell_collision (dik : Z) :
  exists p_dik,
    collision_probability (sparse_cell n) dv st dik = Returns p_dik /\
    n * n / 4 <= p_dik <= n * n / 2.
Proof.
  destruct Hdv as [EPt [EK [HK [EN [Es ER]]]]]. destruct Hst as [Espsr HRU].
  set (P := cur_P_s_dB st) in *.
  pose proof (SPSR_bounds (/ 8000) 0 P (K_0_dB dv) 1 ltac:(lra)) as Hs.
  pose proof (common_neighbors_nonneg (/ 8000) 0 P (K_0_dB dv) 1 (IZR (Z.abs dik))
                ltac:(lra)) as Hcn0.
  pose proof (common_neighbors_le_SPSR (/ 8000) 0 P (K_0_dB dv) 1 (IZR (Z.abs dik))
                ltac:(lra)) as Hcn1.
  assert (Habs : 0 <= IZR (Z.abs dik)) by (apply IZR_le; lia).
  specialize (Hcn1 Habs).
  unfold collision_probability.
  cbn [beta P_t_dB alpha channels rc1 rc2 sparse_cell]. fold P.
  set (cn := common_neighbors (/ 8000) 0 P (K_0_dB dv) 1 (IZR (Z.abs dik))) in *.
  set (psr := PSR (IZR (Z.abs dik)) 0 P (K_0_dB dv) 1).
  rewrite ER, Espsr.
  set (sp := SPSR (/ 8000) 0 P (K_0_dB dv) 1) in *.
  unfold calculate_u_dik. rewrite !py_div_returns by lra. cbn [bind].
  unfold calculate_mu. rewrite py_div_returns by lra. cbn [bind].
  unfold calculate_p_dik. rewrite py_div_returns by lra. cbn [bind].
  eexists. split; [ reflexivity | ].
  unfold calculate_o_dik.
  set (t := cn / sp).
  assert (Ht : 0 <= t <= 1).
  { unfold t. split.
    - apply Rmult_le_pos; [ exact Hcn0 | left; apply Rinv_0_lt_compat; lra ].
    - apply Rmult_le_reg_r with sp; [ lra | ].
      unfold Rdiv. rewrite Rmult_assoc, Rinv_l by lra. lra. }
  set (u := RU st) in *.
  set (r := u / (4 - u)).
  assert (Hr : 0 <= r <= 1).
  { unfold r. split.
    - apply Rmult_le_pos; [ lra | left; apply Rinv_0_lt_compat; lra ].
    - apply Rmult_le_reg_r with (4 - u); [ lra | ].
      unfold Rdiv. rewrite Rmult_assoc, Rinv_l by lra. lra. }
  assert (Ep : (1 - (1 - 2 / (1 + 1)) * psr)
               * (4 - 2 * u + (u ^ 2 / 4 * (1 - t) + u * t)) * (n / (4 - u)) ^ 2
               = n * n / 4 + n * n / 4 * (t * r)).
  { unfold r. field. lra. }
  rewrite Ep.
  assert (Htr : 0 <= t * r <= 1) by nra.
  assert (Hnn : 0 <= n * n / 4) by nra.
  split; nra.
Qed.

Lemma sparse_cell_neighbor_samples :
  exists p_dik,
    neighbor_samples (sparse_cell n) dv st 0 =
      Returns [(calculate_ps_dik p_dik (RU st / 4), 1 - p_dik)] /\
    n * n / 4 <= p_dik <= n * n / 2.
Proof.
  destruct (sparse_cell_collision (-1)) as [p_dik [Hp Hb]].
  exists p_dik. split; [ | exact Hb ].
  unfold neighbor_samples.
  destruct sparse_cell_d_int as [d_int [Hd ->]]. rewrite Hd. cbn [bind].
  rewrite sparse_cell_neighbor_range. cbn [bind mapM].
  unfold neighbor_sample. rewrite Hp. cbn [bind].
  destruct Hdv as [_ [_ [_ [_ [_ ER]]]]]. rewrite ER.
  rewrite py_div_returns by lra. reflexivity.
Qed.

Lemma sparse_cell_neighbor_sample (dik : Z) :
  exists p_dik,
    collision_probability (sparse_cell n) dv st dik = Returns p_dik /\
    neighbor_sample (sparse_cell n) dv st dik =
      Returns (calculate_ps_dik p_dik (RU st / R_tot dv), 1 - p_dik) /\
    n * n / 4 <= p_dik <= n * n / 2.
Proof.
  destruct (sparse_cell_collision dik) as [p_dik [Hp Hb]].
  exists p_dik. split; [ exact Hp | ]. split; [ | exact Hb ].
  unfold neighbor_sample. rewrite Hp. cbn [bind].
  destruct Hdv as [_ [_ [_ [_ [_ ER]]]]]. rewrite ER.
  rewrite py_div_returns by lra. reflexivity.
Qed.

End SparseCell.

Section SparseCellRun.

Context {SF : SpecialFunctions}.

Lemma sparse_cell_run (n : R) (fuel : nat) :
  0 < n <= 3 ->
  exists dv st p_dik,
    sparse_cell_locals dv /\ sparse_cell_sensing dv st /\
    initialise (sparse_cell n) = Returns (dv, [0%Z]) /\
    threshold_adjust fuel (sparse_cell n) dv = Returns st /\
    neighbor_samples (sparse_cell n) dv st 0 =
      Returns [(calculate_ps_dik p_dik (RU st / 4), 1 - p_dik)] /\
    n * n / 4 <= p_dik <= n * n / 2 /\
    calculate_analytical_results fuel (sparse_cell n) =
      Returns (collect [aggregate 1 [calculate_ps_dik p_dik (RU st / 4)] [1 - p_dik]]).
Proof.
  intro Hn.
  destruct (sparse_cell_initialise n Hn) as [dv [Hi Hdv]].
  destruct (sparse_cell_threshold n Hn dv Hdv fuel) as [st [Ht [_ Hst]]].
  destruct (sparse_cell_neighbor_samples n dv Hdv st Hst) as [p_dik [Hs Hb]].
  exists dv, st, p_dik. repeat split; try assumption; try apply Hdv; try apply Hst; try apply Hb.
  apply (run_of_parts fuel (sparse_cell n) dv [0%Z] st); try assumption.
  constructor; [ | constructor ].
  unfold distance_sample. rewrite Hs. reflexivity.
Qed.

(** In the cell with one channel every per-neighbor success probability is a
    probability. *)
Lemma sparse_cell_probabilities (fuel : nat) :
  neighbor_probabilities_in_unit fuel (sparse_cell 1).
Proof.
  intros dv distances st d_ij pairs Hi Ht Hin Hs.
  destruct (sparse_cell_run 1 fuel ltac:(lra))
    as [dv' [st' [p_dik [Hdv [Hst [Hi' [Ht' [Hs' [Hb _]]]]]]]]].
  rewrite Hi in Hi'. inversion Hi'. subst dv' distances.
  rewrite Ht in Ht'. inversion Ht'. subst st'.
  destruct Hin as [<- | []]. rewrite Hs in Hs'. inversion Hs'. subst pairs.
  destruct Hst as [_ HRU].
  constructor; [ | constructor ]. simpl.
  rewrite calculate_ps_dik_reuse. unfold in_unit.
  assert (0 <= p_dik * (RU st / 4) <= 1 / 4) by nra.
  lra.
Qed.

End SparseCellRun.

(* ================================================================== *)
(** ** Statements checked on closed data *)

(** C1, witness: the one-channel cell run with [p_res_ik = 0.1] and 0.9. *)
Lemma p_res_ik_effect_witness :
  exists out1 out2,
    @calculate_analytical_results soft_sign_functions 0
      (with_p_res_ik 0.1 (sparse_cell 1)) = Returns out1 /\
    @calculate_analytical_results soft_sign_functions 0
      (with_p_res_ik 0.9 (sparse_cell 1)) = Returns out2 /\
    prr_nrv2x out1 = prr_nrv2x out2 /\
    Forall2 Rle (prr_spc6G out2) (prr_spc6G out1).
Proof.
  destruct (@sparse_cell_run soft_sign_functions 1 0) as [dv [st [p [_ [_ [_ [_ [_ [_ Hrun]]]]]]]]];
    [ lra | ].
  assert (H1 : @calculate_analytical_results soft_sign_functions 0
                 (with_p_res_ik 0.1 (sparse_cell 1)) = Returns
                 (collect [aggregate 1 [calculate_ps_dik p (RU st / 4)] [1 - p]]))
    by (rewrite p_res_ik_unused; exact Hrun).
  assert (H2 : @calculate_analytical_results soft_sign_functions 0
                 (with_p_res_ik 0.9 (sparse_cell 1)) = Returns
                 (collect [aggregate 1 [calculate_ps_dik p (RU st / 4)] [1 - p]]))
    by (rewrite p_res_ik_unused; exact Hrun).
  eexists. eexists. split; [ exact H1 | ]. split; [ exact H2 | ].
  apply (@p_res_ik_effect soft_sign_functions 0 (sparse_cell 1) 0.1 0.9);
    [ lra | exact H1 | exact H2 ].
Defined.


(** C10, witness: the one-channel cell at its outer distance 0 and inner
    sample -1. *)
Lemma spc6G_at_least_nrv2x_witness :
  exists dv st p_dik ps pairs,
    0 <= RU st <= R_tot dv /\
    @collision_probability soft_sign_functions (sparse_cell 1) dv st (-1) = Returns p_dik /\
    0 <= p_dik /\
    @neighbor_sample soft_sign_functions (sparse_cell 1) dv st (-1) = Returns ps /\
    1 - p_dik <= calculate_ps_dik p_dik (RU st / R_tot dv) /\
    @neighbor_samples soft_sign_functions (sparse_cell 1) dv st 0 = Returns pairs /\
    Forall (fun ps => in_unit (fst ps) /\ in_unit (snd ps)) pairs /\
    prr_nr (aggregate (rri (sparse_cell 1)) (map fst pairs) (map snd pairs)) <=
    prr_6G (aggregate (rri (sparse_cell 1)) (map fst pairs) (map snd pairs)).
Proof.
  destruct (@sparse_cell_run soft_sign_functions 1 0)
    as [dv [st [p [Hdv [Hst [Hi [Ht [Hs _]]]]]]]]; [ lra | ].
  destruct (@sparse_cell_neighbor_sample soft_sign_functions 1 dv Hdv st Hst (-1))
    as [p_dik [Hp [Hn Hb]]].
  assert (HRU : 0 <= RU st <= R_tot dv).
  { destruct Hdv as [_ [_ [_ [_ [_ ER]]]]]. destruct Hst as [_ HRU]. rewrite ER. lra. }
  assert (Hpos : 0 <= p_dik) by lra.
  assert (Hunit := @sparse_cell_probabilities soft_sign_functions 0 dv [0%Z] st 0%Z _
                     Hi Ht (or_introl eq_refl) Hs).
  destruct (@spc6G_at_least_nrv2x soft_sign_functions (sparse_cell 1) dv st HRU)
    as [Hsample Hsweep].
  destruct (Hsample (-1)%Z p_dik _ Hp Hpos Hn) as [_ [_ [_ Hle]]].
  exists dv, st, p_dik. eexists. eexists.
  split; [ exact HRU | ]. split; [ exact Hp | ]. split; [ exact Hpos | ].
  split; [ exact Hn | ]. split; [ exact Hle | ]. split; [ exact Hs | ].
  split; [ exact Hunit | ].
  apply (Hsweep 0%Z _ Hs Hunit).
Defined.

(* ================================================================== *)
(** ** Further facts about [calculations.py] *)

Lemma ln_le_compat (x y : R) : 0 < x -> x <= y -> ln x <= ln y.
Proof.
  intros Hx [Hlt | ->]; [ left; apply ln_increasing; assumption | apply Rle_refl ].
Qed.

Lemma exp_le_compat (x y : R) : x <= y -> exp x <= exp y.
Proof.
  intros [Hlt | ->]; [ left; apply exp_increasing; assumption | apply Rle_refl ].
Qed.

Lemma ln_10_pos : 0 < ln 10.
Proof.
  rewrite <- ln_1. apply ln_increasing; lra.
Qed.

Lemma Rlog_10_monotone (x y : R) : 0 < x -> x <= y -> Rlog 10 x <= Rlog 10 y.
Proof.
  intros Hx Hxy. unfold Rlog, Rdiv.
  apply Rmult_le_compat_r; [ left; apply Rinv_0_lt_compat; apply ln_10_pos | ].
  apply ln_le_compat; assumption.
Qed.

(** A power of a base in (0,1] with a non-negative exponent. *)
Lemma Rpower_unit_base (b y : R) : 0 < b <= 1 -> 0 <= y -> 0 < Rpower b y <= 1.
Proof.
  intros [Hb0 Hb1] Hy. unfold Rpower. split; [ apply exp_pos | ].
  rewrite <- exp_0. apply exp_le_compat.
  assert (ln b <= 0) by (rewrite <- ln_1; apply ln_le_compat; assumption).
  nra.
Qed.

Lemma Rpower_unit_base_antitone (b y1 y2 : R) :
  0 < b <= 1 -> y1 <= y2 -> Rpower b y2 <= Rpower b y1.
Proof.
  intros [Hb0 Hb1] Hy. unfold Rpower. apply exp_le_compat.
  assert (ln b <= 0) by (rewrite <- ln_1; apply ln_le_compat; assumption).
  nra.
Qed.

Lemma soft_sign_monotone (x y : R) : x <= y -> soft_sign x <= soft_sign y.
Proof.
  intro Hxy. unfold soft_sign.
  assert (Hx : 0 < 1 + Rabs x) by (pose proof (Rabs_pos x); lra).
  assert (Hy : 0 < 1 + Rabs y) by (pose proof (Rabs_pos y); lra).
  apply Rmult_le_reg_r with ((1 + Rabs x) * (1 + Rabs y));
    [ apply Rmult_lt_0_compat; assumption | ].
  replace (x / (1 + Rabs x) * ((1 + Rabs x) * (1 + Rabs y))) with (x * (1 + Rabs y))
    by (field; lra).
  replace (y / (1 + Rabs y) * ((1 + Rabs x) * (1 + Rabs y))) with (y * (1 + Rabs x))
    by (field; lra).
  unfold Rabs. destruct (Rcase_abs x); destruct (Rcase_abs y); nra.
Qed.

Lemma py_div_cases (x y : R) :
  py_div x y = Fails \/ exists v, py_div x y = Returns v.
Proof.
  unfold py_div. destruct (Req_dec_T y 0); [ left; reflexivity | right; eexists; reflexivity ].
Qed.

Lemma py_pow_cases (x y : R) :
  py_pow x y = Fails \/ exists v, py_pow x y = Returns v.
Proof.
  unfold py_pow.
  repeat match goal with
         | |- context [if ?b then _ else _] => destruct b
         end; try (left; reflexivity); right; eexists; reflexivity.
Qed.

Section MoreCalculationsFacts.

Context {SF : SpecialFunctions}.

(** X1.  [PSR] is a probability: its value lies between 0 and 1 for every
    distance and every link parameter. *)
Theorem PSR_is_probability (d Pt_dBm P_sen_dBm K0_dB gamma : R) :
  0 <= PSR d Pt_dBm P_sen_dBm K0_dB gamma <= 1.
Proof.
  pose proof (PSR_range d Pt_dBm P_sen_dBm K0_dB gamma). lra.
Qed.

(** X2.  [PSR] is even in the distance, and it depends on the transmit power,
    the sensitivity and the path-gain constant only through
    [Pt + K0 - P_sen]: raising [Pt] and [P_sen], or [P_sen] and [K0], by the
    same amount changes nothing. *)
Theorem PSR_symmetries (d Pt_dBm P_sen_dBm K0_dB gamma x : R) :
  PSR (- d) Pt_dBm P_sen_dBm K0_dB gamma = PSR d Pt_dBm P_sen_dBm K0_dB gamma /\
  PSR d (Pt_dBm + x) (P_sen_dBm + x) K0_dB gamma = PSR d Pt_dBm P_sen_dBm K0_dB gamma /\
  PSR d Pt_dBm (P_sen_dBm + x) (K0_dB + x) gamma = PSR d Pt_dBm P_sen_dBm K0_dB gamma.
Proof.
  unfold PSR, PathLoss. repeat split.
  - rewrite Rabs_Ropp. reflexivity.
  - do 3 f_equal. unfold Rdiv. f_equal. ring.
  - do 3 f_equal. unfold Rdiv. f_equal. ring.
Qed.

(** X3.  With a non-decreasing [erf] and a non-negative path-loss exponent,
    [PSR] does not increase with the absolute distance. *)
Theorem PSR_nonincreasing_in_distance (d1 d2 Pt_dBm P_sen_dBm K0_dB gamma : R) :
  (forall x y, x <= y -> erf x <= erf y) ->
  0 <= gamma -> Rabs d1 <= Rabs d2 ->
  PSR d2 Pt_dBm P_sen_dBm K0_dB gamma <= PSR d1 Pt_dBm P_sen_dBm K0_dB gamma.
Proof.
  intros Hmono Hg Hd. unfold PSR, PathLoss.
  assert (Hlog : Rlog 10 (Rabs d1 + 1) <= Rlog 10 (Rabs d2 + 1)).
  { apply Rlog_10_monotone; [ pose proof (Rabs_pos d1); lra | lra ]. }
  assert (Hs : 0 < / (3 * sqrt 2)).
  { apply Rinv_0_lt_compat. apply Rmult_lt_0_compat; [ lra | apply sqrt_lt_R0; lra ]. }
  match goal with
  | |- 0.5 * (1 + erf ?a) <= 0.5 * (1 + erf ?b) =>
      assert (Hab : a <= b); [ | specialize (Hmono a b Hab); lra ]
  end.
  unfold Rdiv. apply Rmult_le_compat_r; [ lra | ].
  assert (10 * gamma * Rlog 10 (Rabs d1 + 1) <= 10 * gamma * Rlog 10 (Rabs d2 + 1))
    by (apply Rmult_le_compat_l; [ lra | exact Hlog ]).
  lra.
Qed.

Lemma PSR_antitone_in_sensitivity (d Pt_dBm P1 P2 K0_dB gamma : R) :
  (forall x y, x <= y -> erf x <= erf y) ->
  P1 <= P2 ->
  PSR d Pt_dBm P2 K0_dB gamma <= PSR d Pt_dBm P1 K0_dB gamma.
Proof.
  intros Hmono HP. unfold PSR, PathLoss.
  assert (Hs : 0 < / (3 * sqrt 2)).
  { apply Rinv_0_lt_compat. apply Rmult_lt_0_compat; [ lra | apply sqrt_lt_R0; lra ]. }
  match goal with
  | |- 0.5 * (1 + erf ?a) <= 0.5 * (1 + erf ?b) =>
      assert (Hab : a <= b); [ | specialize (Hmono a b Hab); lra ]
  end.
  unfold Rdiv. apply Rmult_le_compat_r; lra.
Qed.

Lemma SPSR_antitone_in_sensitivity (beta P_t_dB P1 P2 K_0_dB alpha : R) :
  (forall x y, x <= y -> erf x <= erf y) ->
  0 <= beta -> P1 <= P2 ->
  SPSR beta P_t_dB P2 K_0_dB alpha <= SPSR beta P_t_dB P1 K_0_dB alpha.
Proof.
  intros Hmono Hb HP. unfold SPSR.
  apply Rmult_le_compat_l; [ exact Hb | ].
  apply np_sum_map_le. intro a.
  apply PSR_antitone_in_sensitivity; assumption.
Qed.

Lemma calculate_RU_value (R spsr op : float) :
  op < 1 -> calculate_RU R spsr op = Returns (R * (1 - Rpower (1 - op) spsr)).
Proof.
  intro Hop. unfold calculate_RU. rewrite py_pow_positive by lra. reflexivity.
Qed.

Lemma calculate_RU_saturated (R spsr : float) :
  0 < spsr -> calculate_RU R spsr 1 = Returns R.
Proof.
  intro Hs. unfold calculate_RU, py_pow. replace (1 - 1) with 0 by ring.
  destruct (Rlt_dec 0 0); [ lra | ]. destruct (Req_dec_T 0 0); [ | lra ].
  destruct (Rlt_dec 0 spsr); [ | lra ]. cbn [bind]. f_equal. ring.
Qed.

(** X4.  For [beta >= 0] and a separation [d_i_k >= 0] two vehicles have at
    most as many common neighbors as one of them has sensed neighbors
    ([SPSR]), and exactly as many at separation 0. *)
Theorem common_neighbors_colocated (beta P_t_dB P_s_dB K_0_dB alpha d_i_k : R) :
  0 <= beta -> 0 <= d_i_k ->
  common_neighbors beta P_t_dB P_s_dB K_0_dB alpha d_i_k
    <= SPSR beta P_t_dB P_s_dB K_0_dB alpha /\
  common_neighbors beta P_t_dB P_s_dB K_0_dB alpha 0
    = SPSR beta P_t_dB P_s_dB K_0_dB alpha.
Proof.
  intros Hb Hd. split; [ apply common_neighbors_le_SPSR; assumption | ].
  unfold common_neighbors, SPSR, rho. f_equal. f_equal.
  apply map_ext. intro a.
  rewrite Ropp_0, exp_0, Rminus_0_r.
  replace (PSR (Rabs (IZR a)) P_t_dB P_s_dB K_0_dB alpha)
    with (PSR (IZR a) P_t_dB P_s_dB K_0_dB alpha)
    by (unfold PSR, PathLoss; rewrite Rabs_Rabsolu; reflexivity).
  unfold Rmin. destruct (Rle_dec _ _); ring.
Qed.

(** X5.  For [R >= 0], an overlap probability in [0,1) and [spsr >= 0],
    [calculate_RU] returns a value in [0, R] (below [R] when [R > 0]) that
    does not decrease with [spsr]. *)
Theorem calculate_RU_range (R spsr1 spsr2 op : float) :
  0 <= R -> 0 <= op < 1 -> 0 <= spsr1 <= spsr2 ->
  exists RU1 RU2,
    calculate_RU R spsr1 op = Returns RU1 /\
    calculate_RU R spsr2 op = Returns RU2 /\
    0 <= RU1 <= RU2 /\ RU2 <= R /\ (0 < R -> RU2 < R).
Proof.
  intros HR Hop Hs. rewrite !calculate_RU_value by lra.
  eexists. eexists. split; [ reflexivity | ]. split; [ reflexivity | ].
  pose proof (Rpower_unit_base (1 - op) spsr1 ltac:(lra) ltac:(lra)) as H1.
  pose proof (Rpower_unit_base (1 - op) spsr2 ltac:(lra) ltac:(lra)) as H2.
  pose proof (Rpower_unit_base_antitone (1 - op) spsr1 spsr2 ltac:(lra) ltac:(lra)) as H12.
  repeat split; try nra.
Qed.

(** X6.  Edge values of [calculate_RU]: with [spsr = 0] it returns 0 for
    every overlap probability; with overlap probability 1 it returns [R]
    for [spsr > 0] and has no value for [spsr < 0] ([0 ** negative]). *)
Theorem calculate_RU_edges (R spsr op : float) :
  calculate_RU R 0 op = Returns 0 /\
  (0 < spsr -> calculate_RU R spsr 1 = Returns R) /\
  (spsr < 0 -> calculate_RU R spsr 1 = Fails).
Proof.
  unfold calculate_RU. repeat split.
  - assert (E : py_pow (1 - op) 0 = Returns 1).
    { unfold py_pow. destruct (Rlt_dec 0 (1 - op)) as [Hpos | _].
      - rewrite Rpower_O by exact Hpos. reflexivity.
      - destruct (Req_dec_T (1 - op) 0) as [_ | _].
        + destruct (Rlt_dec 0 0); [ lra | ].
          destruct (Req_dec_T 0 0); [ reflexivity | lra ].
        + assert (EI : Int_part 0 = 0%Z) by (symmetry; apply Int_part_spec; lra).
          rewrite EI. destruct (Req_dec_T (IZR 0) 0); [ reflexivity | lra ]. }
    rewrite E. cbn [bind]. f_equal. ring.
  - intro Hs. fold (calculate_RU R spsr 1). apply calculate_RU_saturated. exact Hs.
  - intro Hs. unfold py_pow. replace (1 - 1) with 0 by ring.
    destruct (Rlt_dec 0 0); [ lra | ]. destruct (Req_dec_T 0 0); [ | lra ].
    destruct (Rlt_dec 0 spsr); [ lra | ].
    destruct (Req_dec_T spsr 0); [ lra | reflexivity ].
Qed.

(** X7.  For [rc1 + rc2 >= 2] and a [psr_value] in [0,1], [calculate_mu]
    returns a value between [1 - psr_value] and 1, and exactly 1 when
    [rc1 + rc2 = 2]. *)
Theorem calculate_mu_range (rc1 rc2 psr_value : R) :
  2 <= rc1 + rc2 -> 0 <= psr_value <= 1 ->
  exists mu,
    calculate_mu rc1 rc2 psr_value = Returns mu /\
    1 - psr_value <= mu <= 1 /\
    (rc1 + rc2 = 2 -> mu = 1).
Proof.
  intros Hrc Hpsr. unfold calculate_mu.
  rewrite py_div_returns by lra. cbn [bind].
  eexists. split; [ reflexivity | ].
  assert (Hq : 0 < 2 / (rc1 + rc2) <= 1).
  { split.
    - apply Rdiv_lt_0_compat; lra.
    - apply Rmult_le_reg_r with (rc1 + rc2); [ lra | ].
      unfold Rdiv. rewrite Rmult_assoc, Rinv_l by lra. lra. }
  split; [ nra | ].
  intro E. rewrite E. replace (2 / 2) with 1 by lra. ring.
Qed.

(** X8.  For [0 <= RU <= R], [R > 0] and [0 <= common_neighbors_count <= spsr],
    [spsr > 0]: [calculate_u_dik] returns a value between [RU^2 / R] and
    [RU], and [calculate_o_dik] of it lies between [(R - RU)^2 / R] and
    [R - RU]. *)
Theorem overlap_between_estimates (R RU common_neighbors_count spsr : float) :
  0 < R -> 0 <= RU <= R -> 0 < spsr -> 0 <= common_neighbors_count <= spsr ->
  exists u_dik,
    calculate_u_dik R RU common_neighbors_count spsr = Returns u_dik /\
    RU ^ 2 / R <= u_dik <= RU /\
    (R - RU) ^ 2 / R <= calculate_o_dik R RU u_dik <= R - RU.
Proof.
  intros HR HRU Hs Hcn. unfold calculate_u_dik.
  rewrite !py_div_returns by lra. cbn [bind].
  eexists. split; [ reflexivity | ].
  set (t := common_neighbors_count / spsr).
  assert (Ht : 0 <= t <= 1).
  { unfold t. split.
    - apply Rmult_le_pos; [ lra | left; apply Rinv_0_lt_compat; lra ].
    - apply Rmult_le_reg_r with spsr; [ lra | ].
      unfold Rdiv. rewrite Rmult_assoc, Rinv_l by lra. lra. }
  set (a := RU ^ 2 / R).
  assert (Ha : 0 <= a <= RU).
  { unfold a. split.
    - apply Rmult_le_pos; [ nra | left; apply Rinv_0_lt_compat; lra ].
    - apply Rmult_le_reg_r with R; [ lra | ].
      unfold Rdiv. rewrite Rmult_assoc, Rinv_l by lra. nra. }
  assert (Hu : a <= a * (1 - t) + RU * t <= RU) by nra.
  split; [ exact Hu | ].
  unfold calculate_o_dik.
  replace ((R - RU) ^ 2 / R) with (R - 2 * RU + a) by (unfold a; field; lra).
  lra.
Qed.

(** X9.  For [p_dik >= 0], [calculate_ps_dik] does not increase with its second
    argument; at 0 it is 1 and at 1 it is the NR-V2X value [1 - p_dik]. *)
Theorem calculate_ps_dik_reuse_credit (p_dik q1 q2 : R) :
  0 <= p_dik -> q1 <= q2 ->
  calculate_ps_dik p_dik q2 <= calculate_ps_dik p_dik q1 /\
  calculate_ps_dik p_dik 0 = 1 /\
  calculate_ps_dik p_dik 1 = 1 - p_dik.
Proof.
  intros Hp Hq. split; [ apply calculate_ps_dik_antitone; assumption | ].
  unfold calculate_ps_dik. split; ring.
Qed.

(** X10.  For positive [P_t], [K_0], [gamma], [d_ij], [alpha] and a noise power
    [0 <= N_0 < P_t * K_0 / (gamma * d_ij ** alpha)], [calculate_d_int]
    returns a value of at least [gamma ** (1 / alpha) * d_ij], with equality
    when [N_0 = 0]. *)
Theorem calculate_d_int_lower_bound (P_t K_0 gamma d_ij alpha N_0 : R) :
  0 < P_t -> 0 < K_0 -> 0 < gamma -> 0 < d_ij -> 0 < alpha ->
  0 <= N_0 < P_t * K_0 / (gamma * Rpower d_ij alpha) ->
  exists d_int,
    calculate_d_int P_t K_0 gamma d_ij alpha N_0 = Returns d_int /\
    Rpower gamma (1 / alpha) * d_ij <= d_int /\
    (N_0 = 0 -> d_int = Rpower gamma (1 / alpha) * d_ij).
Proof.
  intros HP HK Hg Hd Ha HN. unfold calculate_d_int.
  rewrite py_pow_positive by exact Hd. cbn [bind].
  set (dp := Rpower d_ij alpha) in *.
  assert (Hdp : 0 < dp) by apply exp_pos.
  assert (Hgd : 0 < gamma * dp) by (apply Rmult_lt_0_compat; assumption).
  assert (HPK : 0 < P_t * K_0) by (apply Rmult_lt_0_compat; assumption).
  rewrite py_div_returns by lra. cbn [bind].
  set (q := P_t * K_0 / (gamma * dp)) in *.
  assert (Hq : 0 < q) by (apply Rdiv_lt_0_compat; assumption).
  rewrite py_div_returns by lra. cbn [bind].
  rewrite py_div_returns by lra. cbn [bind].
  set (ratio := P_t * K_0 / (q - N_0)).
  assert (Hbase : gamma * dp <= ratio).
  { assert (Er : ratio * (q - N_0) = P_t * K_0) by (unfold ratio; field; lra).
    assert (Eq : gamma * dp * q = P_t * K_0) by (unfold q; field; lra).
    assert (Hn : 0 <= gamma * dp * N_0) by (apply Rmult_le_pos; lra).
    apply Rmult_le_reg_r with (q - N_0); [ lra | ]. rewrite Er. lra. }
  rewrite py_pow_positive by lra.
  assert (Hfree : Rpower (gamma * dp) (1 / alpha) = Rpower gamma (1 / alpha) * d_ij).
  { rewrite <- Rpower_mult_distr by assumption. f_equal.
    unfold dp. rewrite Rpower_mult.
    replace (alpha * (1 / alpha)) with 1 by (field; lra).
    apply Rpower_1. exact Hd. }
  assert (Hinv : 0 <= 1 / alpha) by (left; apply Rdiv_lt_0_compat; lra).
  eexists. split; [ reflexivity | ]. split.
  - rewrite <- Hfree. apply Rle_Rpower_l; [ exact Hinv | lra ].
  - intro E0. rewrite <- Hfree. f_equal. unfold ratio. rewrite E0.
    unfold q. field. lra.
Qed.

(** X11.  [calculate_d_int] has no value when [alpha = 0] ([1 / alpha]), and
    when [d_ij > 0] and the noise power equals
    [P_t * K_0 / (gamma * d_ij ** alpha)] (zero denominator). *)
Theorem calculate_d_int_undefined (P_t K_0 gamma d_ij alpha N_0 : R) :
  alpha = 0 \/ (0 < d_ij /\ P_t * K_0 / (gamma * Rpower d_ij alpha) = N_0) ->
  calculate_d_int P_t K_0 gamma d_ij alpha N_0 = Fails.
Proof.
  intros [Ea | [Hd EN]]; unfold calculate_d_int.
  - destruct (py_pow_cases d_ij alpha) as [-> | [dp ->]]; cbn [bind]; [ reflexivity | ].
    destruct (py_div_cases (P_t * K_0) (gamma * dp)) as [-> | [q ->]]; cbn [bind];
      [ reflexivity | ].
    destruct (py_div_cases (P_t * K_0) (q - N_0)) as [-> | [r ->]]; cbn [bind];
      [ reflexivity | ].
    unfold py_div. destruct (Req_dec_T alpha 0); [ reflexivity | contradiction ].
  - rewrite py_pow_positive by exact Hd. cbn [bind].
    destruct (py_div_cases (P_t * K_0) (gamma * Rpower d_ij alpha)) as [-> | [q Hq]];
      cbn [bind]; [ reflexivity | ].
    rewrite Hq. cbn [bind].
    assert (Eq : q = N_0).
    { unfold py_div in Hq. destruct (Req_dec_T (gamma * Rpower d_ij alpha) 0);
        [ discriminate | ]. inversion Hq. exact EN. }
    unfold py_div at 1. destruct (Req_dec_T (q - N_0) 0) as [ | Hne ]; [ reflexivity | ].
    exfalso. apply Hne. lra.
Qed.

End MoreCalculationsFacts.


(** X3, witness. *)
Lemma PSR_nonincreasing_in_distance_witness :
  @PSR soft_sign_functions 100 23 (- 90) (- 47) 2
    <= @PSR soft_sign_functions (- 50) 23 (- 90) (- 47) 2.
Proof.
  apply (@PSR_nonincreasing_in_distance soft_sign_functions (- 50) 100 23 (- 90) (- 47) 2).
  - exact soft_sign_monotone.
  - lra.
  - rewrite (Rabs_left (- 50)), (Rabs_pos_eq 100) by lra. lra.
Defined.

(** X4, witness. *)
Lemma common_neighbors_colocated_witness :
  @common_neighbors soft_sign_functions (1 / 20) 23 (- 90) (- 47) 2 30
    <= @SPSR soft_sign_functions (1 / 20) 23 (- 90) (- 47) 2 /\
  @common_neighbors soft_sign_functions (1 / 20) 23 (- 90) (- 47) 2 0
    = @SPSR soft_sign_functions (1 / 20) 23 (- 90) (- 47) 2.
Proof.
  apply (@common_neighbors_colocated soft_sign_functions (1 / 20) 23 (- 90) (- 47) 2 30); lra.
Defined.

(** X5, witness. *)
Lemma calculate_RU_range_witness :
  exists RU1 RU2,
    calculate_RU 10000 1 (1 / 5000) = Returns RU1 /\
    calculate_RU 10000 2 (1 / 5000) = Returns RU2 /\
    0 <= RU1 <= RU2 /\ RU2 <= 10000 /\ (0 < 10000 -> RU2 < 10000).
Proof.
  apply (calculate_RU_range 10000 1 2 (1 / 5000)); lra.
Defined.

(** X7, witness. *)
Lemma calculate_mu_range_witness :
  exists mu,
    calculate_mu 2 3 (1 / 2) = Returns mu /\
    1 - 1 / 2 <= mu <= 1 /\
    (2 + 3 = 2 -> mu = 1).
Proof.
  apply (calculate_mu_range 2 3 (1 / 2)); lra.
Defined.

(** X8, witness. *)
Lemma overlap_between_estimates_witness :
  exists u_dik,
    calculate_u_dik 100 40 1 2 = Returns u_dik /\
    40 ^ 2 / 100 <= u_dik <= 40 /\
    (100 - 40) ^ 2 / 100 <= calculate_o_dik 100 40 u_dik <= 100 - 40.
Proof.
  apply (overlap_between_estimates 100 40 1 2); lra.
Defined.

(** X9, witness. *)
Lemma calculate_ps_dik_reuse_credit_witness :
  calculate_ps_dik (1 / 4) (1 / 2) <= calculate_ps_dik (1 / 4) (1 / 10) /\
  calculate_ps_dik (1 / 4) 0 = 1 /\
  calculate_ps_dik (1 / 4) 1 = 1 - 1 / 4.
Proof.
  apply (calculate_ps_dik_reuse_credit (1 / 4) (1 / 10) (1 / 2)); lra.
Defined.

(** X10, witness. *)
Lemma calculate_d_int_lower_bound_witness :
  exists d_int,
    calculate_d_int 1 1 1 1 1 (1 / 2) = Returns d_int /\
    Rpower 1 (1 / 1) * 1 <= d_int /\
    (1 / 2 = 0 -> d_int = Rpower 1 (1 / 1) * 1).
Proof.
  apply (calculate_d_int_lower_bound 1 1 1 1 1 (1 / 2)); try lra.
  rewrite Rpower_1 by lra. lra.
Defined.

(** X11, witness. *)
Lemma calculate_d_int_undefined_witness :
  calculate_d_int 1 1 1 1 1 1 = Fails.
Proof.
  apply (calculate_d_int_undefined 1 1 1 1 1 1).
  right. split; [ lra | ]. rewrite Rpower_1 by lra. lra.
Defined.

(* ================================================================== *)
(** ** Further facts about [analytical_prr_pir.py] *)

(* ------------------------------------------------------------------ *)
(** *** Ranges *)

Lemma range_elements_In (start stop step x : Z) :
  (0 < step)%Z ->
  In x (range_elements start stop step) <->
  (start <= x < stop)%Z /\ (step | x - start)%Z.
Proof.
  intro Hs. split.
  - intro Hin. split; [ apply (range_elements_below_stop _ _ step); assumption | ].
    apply In_nth_error in Hin. destruct Hin as [k Hk].
    apply range_elements_nth in Hk. destruct Hk as [-> _].
    exists (Z.of_nat k). lia.
  - intros [Hb [m Hm]].
    assert (Hm0 : (0 <= m)%Z) by nia.
    unfold range_elements. apply in_map_iff. exists (Z.to_nat m). split; [ lia | ].
    apply in_seq. split; [ lia | ]. simpl.
    unfold range_length. apply Z.ltb_lt in Hs as Hpos. rewrite Hpos.
    assert (Hlt : (start <? stop)%Z = true) by (apply Z.ltb_lt; lia). rewrite Hlt.
    assert (m <= (stop - start - 1) / step)%Z by (apply Z.div_le_lower_bound; lia).
    lia.
Qed.

(** X12.  With a positive [step_distance] the outer distance list holds the
    multiples of [step_distance] from 0 up to, but excluding,
    [max_distance + step_distance], in increasing order: entry [k] is
    [k * step_distance]. *)
Theorem outer_distances_multiples (c : config) :
  (0 < step_distance c)%Z ->
  exists distances,
    outer_distances c = Returns distances /\
    (forall k x, nth_error distances k = Some x -> x = (Z.of_nat k * step_distance c)%Z) /\
    (forall x, In x distances <->
               (0 <= x < max_distance c + step_distance c)%Z /\ (step_distance c | x)%Z).
Proof.
  intro Hs. unfold outer_distances, py_range.
  destruct (step_distance c =? 0)%Z eqn:E; [ apply Z.eqb_eq in E; lia | ].
  eexists. split; [ reflexivity | ]. split.
  - intros k x Hk. apply range_elements_nth in Hk. lia.
  - intro x. rewrite range_elements_In by exact Hs. rewrite Z.sub_0_r. reflexivity.
Qed.

(** X13.  When [step_distance > 0] divides [max_distance >= 0], the outer
    distance list has [max_distance / step_distance + 1] entries, contains
    [max_distance], and every entry lies in [0, max_distance]. *)
Theorem outer_distances_divisible (c : config) :
  (0 < step_distance c)%Z -> (0 <= max_distance c)%Z ->
  (step_distance c | max_distance c)%Z ->
  exists distances,
    outer_distances c = Returns distances /\
    length distances = Z.to_nat (max_distance c / step_distance c + 1) /\
    In (max_distance c) distances /\
    (forall x, In x distances -> (0 <= x <= max_distance c)%Z).
Proof.
  intros Hs Hm [q Hq]. unfold outer_distances, py_range.
  destruct (step_distance c =? 0)%Z eqn:E; [ apply Z.eqb_eq in E; lia | ].
  eexists. split; [ reflexivity | ].
  assert (Hq0 : (0 <= q)%Z) by nia.
  split; [ | split ].
  - unfold range_elements. rewrite length_map, length_seq. f_equal.
    unfold range_length. apply Z.ltb_lt in Hs as Hpos. rewrite Hpos.
    assert (Hlt : (0 <? max_distance c + step_distance c)%Z = true) by (apply Z.ltb_lt; lia).
    rewrite Hlt. rewrite Hq at 1 2.
    rewrite Z.div_mul by lia.
    replace (q * step_distance c + step_distance c - 0 - 1)%Z
      with (step_distance c - 1 + q * step_distance c)%Z by lia.
    rewrite Z.div_add by lia. rewrite Z.div_small by lia. lia.
  - apply range_elements_In; [ exact Hs | ]. split; [ lia | ].
    exists q. lia.
  - intros x Hin. apply range_elements_In in Hin; [ | exact Hs ].
    destruct Hin as [Hb [m Hm']]. split; [ lia | ].
    assert (m <= q)%Z by nia. nia.
Qed.

Section MoreDriverFacts.

Context {SF : SpecialFunctions}.

(** X14.  A call of [calculate_analytical_results] with another [p_res_ik] has
    the same outcome: the same four sequences, or the same failure. *)
Theorem driver_ignores_p_res_ik (fuel : nat) (p : R) (c : config) :
  calculate_analytical_results fuel (with_p_res_ik p c) =
  calculate_analytical_results fuel c.
Proof.
  apply p_res_ik_unused.
Qed.

(** X15.  [calculate_analytical_results] raises when [fc <= 0], when
    [step_distance = 0], when [channels = 0], when [slot = 0], or when
    [R = maxchannel * (rri / slot)] is 0; the failure comes before the
    threshold loop, whatever the other arguments are. *)
Theorem calculate_analytical_results_rejects (fuel : nat) (c : config) :
  fc c <= 0 \/ step_distance c = 0%Z \/ channels c = 0 \/ slot c = 0 \/
  maxchannel c * (rri c / slot c) = 0 ->
  calculate_analytical_results fuel c = Fails.
Proof.
  intro H. unfold calculate_analytical_results, initialise, math_log10.
  destruct (Rlt_dec 0 (fc c)) as [Hfc | _]; [ | reflexivity ]. cbn [bind].
  unfold outer_distances, py_range.
  destruct (step_distance c =? 0)%Z eqn:Es; [ reflexivity | ]. cbn [bind].
  apply Z.eqb_neq in Es.
  unfold py_div at 1. destruct (Req_dec_T (channels c) 0) as [ | Hc ]; [ reflexivity | ].
  cbn [bind].
  unfold py_div at 1. destruct (Req_dec_T (slot c) 0) as [ | Hsl ]; [ reflexivity | ].
  cbn [bind]. unfold threshold_adjust, sense. cbn [R_tot].
  unfold py_div at 1.
  destruct (Req_dec_T (maxchannel c * (rri c / slot c)) 0) as [ | HR ]; [ reflexivity | ].
  exfalso. destruct H as [H | [H | [H | [H | H]]]]; try contradiction. lra.
Qed.

Lemma neighbor_range_zero (d_ij : Z) (d_int : R) : neighbor_range 0 d_ij d_int = Fails.
Proof.
  unfold neighbor_range, py_div. destruct (Req_dec_T 0 0); [ reflexivity | lra ].
Qed.

(** X16.  With [beta = 0] or [beta > 1] and a non-empty outer distance list,
    [calculate_analytical_results] returns no result: the first inner range
    fails on [1 / beta] or on a zero step, unless an earlier step already
    failed or the threshold loop does not end. *)
Theorem traffic_density_out_of_range (fuel : nat) (c : config) (d : Z) (ds : list Z) :
  beta c = 0 \/ 1 < beta c ->
  outer_distances c = Returns (d :: ds) ->
  calculate_analytical_results fuel c = Fails \/
  calculate_analytical_results fuel c = OutOfFuel.
Proof.
  intros Hb Hd.
  destruct (calculate_analytical_results fuel c) as [out | | ] eqn:Hrun; auto.
  exfalso. apply run_returns in Hrun.
  destruct Hrun as [dv [distances [st [rows [Hi [_ [Hr _]]]]]]].
  apply initialise_distances in Hi. rewrite Hd in Hi. inversion Hi. subst distances.
  inversion Hr as [ | ? row ? ? Hrow _ ]. subst.
  apply distance_sample_returns in Hrow. destruct Hrow as [pairs [Hp _]].
  unfold neighbor_samples in Hp. invert_bind Hp. invert_bind Hp.
  destruct Hb as [Hz | Hgt].
  - rewrite Hz, neighbor_range_zero in E0. discriminate.
  - destruct (neighbor_range_dense (beta c) d v Hgt) as [_ Hf]. rewrite Hf in E0. discriminate.
Qed.

(* ------------------------------------------------------------------ *)
(** *** The locals before the loop *)

Lemma py_div_value (x y v : R) : py_div x y = Returns v -> y <> 0 /\ v = x / y.
Proof.
  unfold py_div. destruct (Req_dec_T y 0); [ discriminate | ].
  intro H. inversion H. split; [ assumption | reflexivity ].
Qed.

Lemma initialise_R_tot (c : config) dv distances :
  initialise c = Returns (dv, distances) ->
  R_tot dv = maxchannel c * (rri c / slot c).
Proof.
  unfold initialise. intro H.
  invert_bind H. invert_bind H. invert_bind H. invert_bind H.
  apply py_div_value in E2. destruct E2 as [_ ->].
  inversion H. reflexivity.
Qed.

Lemma initialise_returns (c : config) :
  0 < fc c -> step_distance c <> 0%Z -> channels c <> 0 -> slot c <> 0 ->
  exists dv distances, initialise c = Returns (dv, distances).
Proof.
  intros Hfc Hs Hc Hsl. unfold initialise.
  rewrite math_log10_positive by exact Hfc. cbn [bind].
  unfold outer_distances, py_range.
  apply Z.eqb_neq in Hs. rewrite Hs. cbn [bind].
  rewrite !py_div_returns by assumption. cbn [bind].
  eexists. eexists. reflexivity.
Qed.

(* ------------------------------------------------------------------ *)
(** *** The threshold loop, continued *)

(** X17.  If the bound is violated at [P_s_dB], [P_s_dB + 3], ...,
    [P_s_dB + 3 (n - 1)] and holds at [P_s_dB + 3 n], the threshold loop
    returns the values computed there, after [n] passes, on any fuel of at
    least [n]. *)
Theorem threshold_loop_exits_at_first_bound
    (c : config) (dv : derived) (n fuel : nat) (stn : sensing) :
  (forall k : nat, (k < n)%nat ->
     exists stk, sense c dv (P_s_dB c + 3 * INR k) = Returns stk /\
                 RU stk > (1 - s c) * R_tot dv) ->
  sense c dv (P_s_dB c + 3 * INR n) = Returns stn ->
  RU stn <= (1 - s c) * R_tot dv ->
  (n <= fuel)%nat ->
  threshold_adjust fuel c dv = Returns stn /\
  cur_P_s_dB stn = P_s_dB c + 3 * INR n.
Proof.
  intros Hk Hn Hb Hf. split.
  - apply (threshold_adjust_terminates c dv n fuel stn); assumption.
  - apply sense_returns in Hn. apply Hn.
Qed.

(** X18.  With a non-decreasing [erf], [beta >= 0], [R >= 0] and an overlap
    probability [channels / R] in [0,1), a higher sensitivity threshold gives
    a [spsr] and an [RU] that are not larger: each pass of the threshold
    loop moves [RU] toward the bound. *)
Theorem raising_threshold_lowers_utilisation
    (c : config) (dv : derived) (P1 P2 : R) (st1 st2 : sensing) :
  (forall x y, x <= y -> erf x <= erf y) ->
  0 <= beta c -> 0 <= R_tot dv -> 0 <= channels c / R_tot dv < 1 ->
  P1 <= P2 ->
  sense c dv P1 = Returns st1 ->
  sense c dv P2 = Returns st2 ->
  spsr st2 <= spsr st1 /\ RU st2 <= RU st1.
Proof.
  intros Hmono Hb HR [Hop0 Hop1] HP H1 H2.
  apply sense_returns in H1. destruct H1 as [_ [E1 R1]].
  apply sense_returns in H2. destruct H2 as [_ [E2 R2]].
  assert (Hsp : spsr st2 <= spsr st1)
    by (rewrite E1, E2; apply SPSR_antitone_in_sensitivity; assumption).
  split; [ exact Hsp | ].
  rewrite calculate_RU_value in R1, R2 by exact Hop1.
  inversion R1 as [V1]. inversion R2 as [V2].
  pose proof (Rpower_unit_base_antitone (1 - channels c / R_tot dv) (spsr st2) (spsr st1)
                ltac:(lra) Hsp) as Hpow.
  nra.
Qed.

(* ------------------------------------------------------------------ *)
(** *** The collision probability *)

Lemma collision_probability_range (c : config) (dv : derived) (st : sensing) (dik : Z) :
  0 < beta c -> 2 <= rc1 c + rc2 c ->
  0 <= RU st < R_tot dv ->
  spsr st = SPSR (beta c) (P_t_dB c) (cur_P_s_dB st) (K_0_dB dv) (alpha c) ->
  exists p_dik,
    collision_probability c dv st dik = Returns p_dik /\
    0 <= p_dik <= channels c ^ 2 / (R_tot dv - RU st).
Proof.
  intros Hb Hrc HRU Espsr.
  set (P := cur_P_s_dB st) in *.
  pose proof (SPSR_bounds (beta c) (P_t_dB c) P (K_0_dB dv) (alpha c) Hb) as Hs.
  assert (Habs : 0 <= IZR (Z.abs dik)) by (apply IZR_le; lia).
  pose proof (common_neighbors_nonneg (beta c) (P_t_dB c) P (K_0_dB dv) (alpha c)
                (IZR (Z.abs dik)) ltac:(lra)) as Hcn0.
  pose proof (common_neighbors_le_SPSR (beta c) (P_t_dB c) P (K_0_dB dv) (alpha c)
                (IZR (Z.abs dik)) ltac:(lra) Habs) as Hcn1.
  pose proof (PSR_range (IZR (Z.abs dik)) (P_t_dB c) P (K_0_dB dv) (alpha c)) as Hpsr.
  unfold collision_probability. fold P. rewrite Espsr.
  set (cn := common_neighbors _ _ _ _ _ _) in *.
  set (psr := PSR _ _ _ _ _) in *.
  set (sp := SPSR _ _ _ _ _) in *.
  set (R := R_tot dv) in *. set (u := RU st) in *.
  unfold calculate_u_dik. rewrite !py_div_returns by lra. cbn [bind].
  unfold calculate_mu. rewrite py_div_returns by lra. cbn [bind].
  unfold calculate_p_dik. rewrite py_div_returns by lra. cbn [bind].
  eexists. split; [ reflexivity | ].
  unfold calculate_o_dik.
  set (t := cn / sp).
  assert (Ht : 0 <= t <= 1).
  { unfold t. split.
    - apply Rmult_le_pos; [ exact Hcn0 | left; apply Rinv_0_lt_compat; lra ].
    - apply Rmult_le_reg_r with sp; [ lra | ].
      unfold Rdiv. rewrite Rmult_assoc, Rinv_l by lra. lra. }
  set (a := u ^ 2 / R).
  assert (Ha : 0 <= a <= u).
  { unfold a. split.
    - apply Rmult_le_pos; [ nra | left; apply Rinv_0_lt_compat; lra ].
    - apply Rmult_le_reg_r with R; [ lra | ].
      unfold Rdiv. rewrite Rmult_assoc, Rinv_l by lra. nra. }
  set (q := 2 / (rc1 c + rc2 c)).
  assert (Hq : 0 < q <= 1).
  { unfold q. split.
    - apply Rdiv_lt_0_compat; lra.
    - apply Rmult_le_reg_r with (rc1 c + rc2 c); [ lra | ].
      unfold Rdiv. rewrite Rmult_assoc, Rinv_l by lra. lra. }
  set (mu := 1 - (1 - q) * psr).
  assert (Hmu : 0 <= mu <= 1) by (unfold mu; nra).
  set (o := R - 2 * u + (a * (1 - t) + u * t)).
  assert (Hlow : R - 2 * u + a = (R - u) ^ 2 / R) by (unfold a; field; lra).
  assert (Hsq : 0 <= (R - u) ^ 2 / R).
  { apply Rmult_le_pos; [ nra | left; apply Rinv_0_lt_compat; lra ]. }
  assert (Ho : 0 <= o <= R - u) by (unfold o; nra).
  set (w := (channels c / (R - u)) ^ 2).
  assert (Hw : 0 <= w) by (unfold w; nra).
  assert (Ew : (R - u) * w = channels c ^ 2 / (R - u)) by (unfold w; field; lra).
  assert (Hmo : 0 <= mu * o <= R - u) by nra.
  rewrite <- Ew. split; nra.
Qed.

(** X19.  For [beta > 0], [rc1 + rc2 >= 2], [0 <= RU < R] and [spsr] computed
    at the current sensitivity, the collision probability of every inner
    sample is returned and lies between 0 and
    [channels^2 / (R - RU)]. *)
Theorem collision_probability_bounds (c : config) (dv : derived) (st : sensing) (dik : Z) :
  0 < beta c -> 2 <= rc1 c + rc2 c ->
  0 <= RU st < R_tot dv ->
  spsr st = SPSR (beta c) (P_t_dB c) (cur_P_s_dB st) (K_0_dB dv) (alpha c) ->
  exists p_dik,
    collision_probability c dv st dik = Returns p_dik /\
    0 <= p_dik <= channels c ^ 2 / (R_tot dv - RU st).
Proof.
  apply collision_probability_range.
Qed.

(* ------------------------------------------------------------------ *)
(** *** A sufficient condition for probabilities *)

Lemma threshold_adjust_state (fuel : nat) (c : config) (dv : derived) (st : sensing) :
  threshold_adjust fuel c dv = Returns st ->
  RU st <= (1 - s c) * R_tot dv /\
  spsr st = SPSR (beta c) (P_t_dB c) (cur_P_s_dB st) (K_0_dB dv) (alpha c) /\
  calculate_RU (R_tot dv) (spsr st) (channels c / R_tot dv) = Returns (RU st).
Proof.
  unfold threshold_adjust. intro H. invert_bind H. rename v into st0.
  destruct (adjust_threshold_returns _ _ _ _ _ _ E H) as [Hb [n [_ [Hs _]]]].
  destruct (sense_returns _ _ _ _ Hs) as [EP [Espsr ERU]].
  split; [ exact Hb | ]. split; [ rewrite EP; exact Espsr | exact ERU ].
Qed.

Lemma rows_in_unit (c : config) (dv : derived) (st : sensing) ds rows :
  Forall2 (fun d_ij row => distance_sample c dv st d_ij = Returns row) ds rows ->
  (forall d_ij pairs,
     neighbor_samples c dv st d_ij = Returns pairs ->
     Forall (fun ps => in_unit (fst ps) /\ in_unit (snd ps)) pairs) ->
  Forall (fun row => in_unit (prr_6G row) /\ in_unit (prr_nr row)) rows.
Proof.
  intros Hr Hunit. induction Hr as [ | d_ij row ds rows Hd _ IH ]; constructor; [ | exact IH ].
  apply distance_sample_returns in Hd. destruct Hd as [pairs [Hp ->]].
  destruct (Forall_map_fst_snd in_unit pairs (Hunit d_ij pairs Hp)) as [Hf Hs].
  destruct (aggregate_in_unit (rri c) (map fst pairs) (map snd pairs)) as [A6 Anr].
  split; [ apply A6; exact Hf | apply Anr; exact Hs ].
Qed.

(** X20.  When the driver returns with [beta > 0], [rc1 + rc2 >= 2], [s > 0],
    [0 <= channels < R] and [channels^2 <= s * R], where
    [R = maxchannel * (rri / slot)], every element of both PRR sequences
    lies in [0,1]. *)
Theorem valid_configuration_prr_in_unit (fuel : nat) (c : config) (out : results) :
  calculate_analytical_results fuel c = Returns out ->
  0 < beta c -> 2 <= rc1 c + rc2 c -> 0 < s c ->
  0 <= channels c < maxchannel c * (rri c / slot c) ->
  channels c ^ 2 <= s c * (maxchannel c * (rri c / slot c)) ->
  Forall in_unit (prr_spc6G out) /\ Forall in_unit (prr_nrv2x out).
Proof.
  intros Hrun Hb Hrc Hs Hc Hsq. apply run_returns in Hrun.
  destruct Hrun as [dv [distances [st [rows [Hi [Ht [Hr ->]]]]]]].
  pose proof (initialise_R_tot _ _ _ Hi) as ER.
  destruct (threshold_adjust_state _ _ _ _ Ht) as [Hbound [Espsr ERU]].
  set (R := R_tot dv) in *. rewrite <- ER in Hc, Hsq.
  assert (HR : 0 < R) by lra.
  assert (Hop : 0 <= channels c / R < 1).
  { split.
    - apply Rmult_le_pos; [ lra | left; apply Rinv_0_lt_compat; exact HR ].
    - apply Rmult_lt_reg_r with R; [ exact HR | ].
      unfold Rdiv. rewrite Rmult_assoc, Rinv_l by lra. lra. }
  rewrite calculate_RU_value in ERU by lra. inversion ERU as [EU].
  assert (Hsp : 0 <= spsr st)
    by (rewrite Espsr; left; apply SPSR_bounds; exact Hb).
  pose proof (Rpower_unit_base (1 - channels c / R) (spsr st) ltac:(lra) Hsp) as Hpow.
  assert (HRU : 0 <= RU st < R) by (rewrite <- EU; nra).
  assert (Hgap : s c * R <= R - RU st) by lra.
  assert (Hrows : Forall (fun row => in_unit (prr_6G row) /\ in_unit (prr_nr row)) rows).
  { apply (rows_in_unit c dv st distances rows Hr).
    intros d_ij pairs Hp. unfold neighbor_samples in Hp.
    invert_bind Hp. invert_bind Hp. apply mapM_returns in Hp.
    clear E0. induction Hp as [ | dik ps diks pairs Hd _ IH ]; constructor; [ | exact IH ].
    apply neighbor_sample_returns in Hd. destruct Hd as [p_dik [Hp' [Hne [Ef Es]]]].
    destruct (collision_probability_range c dv st dik Hb Hrc HRU Espsr) as [p [Hp'' Hpb]].
    rewrite Hp' in Hp''. inversion Hp''. subst p.
    fold R in Hpb. assert (Hone : channels c ^ 2 / (R - RU st) <= 1).
    { apply Rmult_le_reg_r with (R - RU st); [ nra | ].
      unfold Rdiv. rewrite Rmult_assoc, Rinv_l by nra. nra. }
    pose proof (reuse_ratio_in_unit (RU st) R ltac:(lra) ltac:(lra)) as Hq.
    rewrite Ef, Es, calculate_ps_dik_reuse. unfold in_unit. fold R.
    assert (0 <= p_dik * (RU st / R) <= p_dik) by nra.
    lra. }
  simpl. split.
  - apply Forall_map. eapply Forall_impl; [ | exact Hrows ]. intros row [H6 _]. exact H6.
  - apply Forall_map. eapply Forall_impl; [ | exact Hrows ]. intros row [_ Hn]. exact Hn.
Qed.

(* ------------------------------------------------------------------ *)
(** *** What the outer loop appends *)

(** X21.  What the outer loop appends: each PRR is the product of the
    per-neighbor success probabilities; the PIR is [float('inf')] exactly
    when that product is at most 0 and [rri] divided by it otherwise; with
    no inner sample the PRR is 1 and the PIR is [rri]. *)
Theorem aggregate_prr_pir (rri : R) (ps_values ps_dik_nr_values : list R) :
  prr_6G (aggregate rri ps_values ps_dik_nr_values) = np_prod ps_values /\
  prr_nr (aggregate rri ps_values ps_dik_nr_values) = np_prod ps_dik_nr_values /\
  (pir_6G (aggregate rri ps_values ps_dik_nr_values) = PlusInf <-> np_prod ps_values <= 0) /\
  (pir_nr (aggregate rri ps_values ps_dik_nr_values) = PlusInf
   <-> np_prod ps_dik_nr_values <= 0) /\
  (0 < np_prod ps_values ->
   pir_6G (aggregate rri ps_values ps_dik_nr_values) = Finite (rri / np_prod ps_values)) /\
  (0 < np_prod ps_dik_nr_values ->
   pir_nr (aggregate rri ps_values ps_dik_nr_values)
   = Finite (rri / np_prod ps_dik_nr_values)) /\
  aggregate rri [] [] =
    {| prr_6G := 1; prr_nr := 1; pir_6G := Finite rri; pir_nr := Finite rri |}.
Proof.
  assert (Hinf : forall x, calculate_pir_dij (1 - x) rri = PlusInf <-> x <= 0).
  { intro x. unfold calculate_pir_dij.
    destruct (Rge_dec (1 - x) 1); split; intro H; try reflexivity; try discriminate; lra. }
  assert (Hfin : forall x, 0 < x -> calculate_pir_dij (1 - x) rri = Finite (rri / x)).
  { intros x Hx. unfold calculate_pir_dij.
    destruct (Rge_dec (1 - x) 1); [ lra | ]. f_equal. f_equal. ring. }
  unfold aggregate. cbn [prr_6G prr_nr pir_6G pir_nr].
  split; [ unfold calculate_prr_dij; ring | ].
  split; [ unfold calculate_prr_dij; ring | ].
  split; [ apply Hinf | ]. split; [ apply Hinf | ].
  split; [ apply Hfin | ]. split; [ apply Hfin | ].
  rewrite (Hfin (np_prod [])) by (simpl; lra).
  unfold calculate_prr_dij. simpl. f_equal; try ring; f_equal; field.
Qed.

End MoreDriverFacts.


(** X22, witness. *)
Lemma results_aligned_witness :
  exists out distances,
    @calculate_analytical_results soft_sign_functions 0 (sparse_cell 1) = Returns out /\
    outer_distances (sparse_cell 1) = Returns distances /\
    length (prr_spc6G out) = length distances /\
    length (prr_nrv2x out) = length distances /\
    length (pir_spc6G out) = length distances /\
    length (pir_nrv2x out) = length distances.
Proof.
  destruct (@sparse_cell_run soft_sign_functions 1 0) as [dv [st [p [_ [_ [_ [_ [_ [_ Hrun]]]]]]]]];
    [ lra | ].
  destruct (@results_aligned soft_sign_functions 0 (sparse_cell 1) _ Hrun) as [distances H].
  eexists. exists distances. split; [ exact Hrun | exact H ].
Defined.

(** X12, witness. *)
Lemma outer_distances_multiples_witness :
  exists distances,
    outer_distances scenario_210 = Returns distances /\
    (forall k x, nth_error distances k = Some x ->
                 x = (Z.of_nat k * step_distance scenario_210)%Z) /\
    (forall x, In x distances <->
               (0 <= x < max_distance scenario_210 + step_distance scenario_210)%Z /\
               (step_distance scenario_210 | x)%Z).
Proof.
  apply (outer_distances_multiples scenario_210). simpl. lia.
Defined.

(** X13, witness. *)
Lemma outer_distances_divisible_witness :
  exists distances,
    outer_distances scenario_200 = Returns distances /\
    length distances = Z.to_nat (max_distance scenario_200 / step_distance scenario_200 + 1) /\
    In (max_distance scenario_200) distances /\
    (forall x, In x distances -> (0 <= x <= max_distance scenario_200)%Z).
Proof.
  apply (outer_distances_divisible scenario_200); simpl; [ lia | lia | exists 4%Z; reflexivity ].
Defined.

(** X15, witness. *)
Lemma calculate_analytical_results_rejects_witness :
  @calculate_analytical_results soft_sign_functions 5 (sparse_cell 0) = Fails.
Proof.
  apply (@calculate_analytical_results_rejects soft_sign_functions 5 (sparse_cell 0)).
  right. right. left. reflexivity.
Defined.

(** X16, witness. *)
Lemma traffic_density_out_of_range_witness :
  @calculate_analytical_results soft_sign_functions 5 dense_scenario = Fails \/
  @calculate_analytical_results soft_sign_functions 5 dense_scenario = OutOfFuel.
Proof.
  apply (@traffic_density_out_of_range soft_sign_functions 5 dense_scenario
           0%Z [50; 100; 150; 200]%Z).
  - right. simpl. lra.
  - reflexivity.
Defined.

(** X17, witness. *)
Lemma threshold_loop_exits_at_first_bound_witness :
  exists dv st,
    @threshold_adjust soft_sign_functions 3 (sparse_cell 1) dv = Returns st /\
    cur_P_s_dB st = P_s_dB (sparse_cell 1) + 3 * INR 0.
Proof.
  destruct (sparse_cell_initialise 1) as [dv [_ Hdv]]; [ lra | ].
  destruct (@sparse_cell_sense soft_sign_functions 1 ltac:(lra) dv Hdv
              (P_s_dB (sparse_cell 1) + 3 * INR 0)) as [st [Hs [_ [_ HRU]]]].
  exists dv, st.
  apply (@threshold_loop_exits_at_first_bound soft_sign_functions (sparse_cell 1) dv 0 3 st).
  - intros k Hk. lia.
  - exact Hs.
  - destruct Hdv as [_ [_ [_ [_ [_ ER]]]]]. rewrite ER. simpl. lra.
  - lia.
Defined.

(** X18, witness. *)
Lemma raising_threshold_lowers_utilisation_witness :
  exists dv st1 st2,
    @sense soft_sign_functions (sparse_cell 1) dv (- 40) = Returns st1 /\
    @sense soft_sign_functions (sparse_cell 1) dv (- 37) = Returns st2 /\
    spsr st2 <= spsr st1 /\ RU st2 <= RU st1.
Proof.
  destruct (sparse_cell_initialise 1) as [dv [_ Hdv]]; [ lra | ].
  destruct (@sparse_cell_sense soft_sign_functions 1 ltac:(lra) dv Hdv (- 40))
    as [st1 [H1 _]].
  destruct (@sparse_cell_sense soft_sign_functions 1 ltac:(lra) dv Hdv (- 37))
    as [st2 [H2 _]].
  exists dv, st1, st2. split; [ exact H1 | ]. split; [ exact H2 | ].
  destruct Hdv as [_ [_ [_ [_ [_ ER]]]]].
  apply (@raising_threshold_lowers_utilisation soft_sign_functions (sparse_cell 1) dv
           (- 40) (- 37) st1 st2); try assumption.
  - exact soft_sign_monotone.
  - simpl. lra.
  - rewrite ER. lra.
  - rewrite ER. simpl. lra.
  - lra.
Defined.

(** X19, witness. *)
Lemma collision_probability_bounds_witness :
  exists dv st p_dik,
    @collision_probability soft_sign_functions (sparse_cell 1) dv st 7 = Returns p_dik /\
    0 <= p_dik <= channels (sparse_cell 1) ^ 2 / (R_tot dv - RU st).
Proof.
  destruct (@sparse_cell_run soft_sign_functions 1 0)
    as [dv [st [p [Hdv [[Espsr HRU] _]]]]]; [ lra | ].
  exists dv, st.
  destruct Hdv as [_ [_ [_ [_ [_ ER]]]]].
  apply (@collision_probability_bounds soft_sign_functions (sparse_cell 1) dv st 7).
  - simpl. lra.
  - simpl. lra.
  - rewrite ER. lra.
  - exact Espsr.
Defined.

(** X20, witness. *)
Lemma valid_configuration_prr_in_unit_witness :
  exists out,
    @calculate_analytical_results soft_sign_functions 0 (sparse_cell 1) = Returns out /\
    Forall in_unit (prr_spc6G out) /\ Forall in_unit (prr_nrv2x out).
Proof.
  destruct (@sparse_cell_run soft_sign_functions 1 0) as [dv [st [p [_ [_ [_ [_ [_ [_ Hrun]]]]]]]]];
    [ lra | ].
  eexists. split; [ exact Hrun | ].
  apply (@valid_configuration_prr_in_unit soft_sign_functions 0 (sparse_cell 1) _ Hrun);
    simpl; lra.
Defined.

(* ================================================================== *)
(** ** PRR in [0,1] for restricted configurations *)

Lemma mapM_total {A B : Type} (f : A -> outcome B) (l : list A) :
  (forall a, In a l -> exists b, f a = Returns b) ->
  exists bs, mapM f l = Returns bs /\ length bs = length l.
Proof.
  induction l as [ | a l IH ]; intro H.
  - exists []. split; reflexivity.
  - destruct (H a) as [b Hb]; [ left; reflexivity | ].
    destruct IH as [bs [Hbs Hlen]]; [ intros x Hx; apply H; right; exact Hx | ].
    exists (b :: bs). split; [ | simpl; rewrite Hlen; reflexivity ].
    apply mapM_of_Forall2. constructor; [ exact Hb | apply mapM_returns; exact Hbs ].
Qed.

(** Bernoulli's inequality for a real exponent. *)
Lemma Rpower_bernoulli (x y : R) : 0 <= x < 1 -> 0 <= y -> 1 - y * (x / (1 - x)) <= Rpower (1 - x) y.
Proof.
  intros [Hx0 Hx1] Hy.
  assert (Hln : - (x / (1 - x)) <= ln (1 - x)).
  { assert (H : ln (/ (1 - x)) <= / (1 - x) - 1).
    { pose proof (exp_ineq1_le (/ (1 - x) - 1)) as He.
      replace (1 + (/ (1 - x) - 1)) with (/ (1 - x)) in He by lra.
      assert (Hp : 0 < / (1 - x)) by (apply Rinv_0_lt_compat; lra).
      rewrite <- (ln_exp (/ (1 - x) - 1)).
      apply ln_le_compat; assumption. }
    rewrite ln_Rinv in H by lra.
    replace (x / (1 - x)) with (/ (1 - x) - 1) by (field; lra). lra. }
  unfold Rpower.
  apply Rle_trans with (1 + y * ln (1 - x)); [ | apply exp_ineq1_le ].
  assert (y * - (x / (1 - x)) <= y * ln (1 - x)) by (apply Rmult_le_compat_l; assumption).
  lra.
Qed.

Section ValidConfigurations.

Context {SF : SpecialFunctions}.

(** What the threshold loop leaves when the overlap probability
    [channels / R] is in [0,1). *)
Lemma threshold_adjust_utilisation (fuel : nat) (c : config) (dv : derived) (st : sensing) :
  threshold_adjust fuel c dv = Returns st ->
  0 < beta c -> 0 <= channels c < R_tot dv ->
  0 <= RU st < R_tot dv /\ RU st <= (1 - s c) * R_tot dv /\
  spsr st = SPSR (beta c) (P_t_dB c) (cur_P_s_dB st) (K_0_dB dv) (alpha c).
Proof.
  intros Ht Hb Hc.
  destruct (threshold_adjust_state _ _ _ _ Ht) as [Hbound [Espsr ERU]].
  set (R := R_tot dv) in *.
  assert (HR : 0 < R) by lra.
  assert (Hop : 0 <= channels c / R < 1).
  { split.
    - apply Rmult_le_pos; [ lra | left; apply Rinv_0_lt_compat; exact HR ].
    - apply Rmult_lt_reg_r with R; [ exact HR | ].
      unfold Rdiv. rewrite Rmult_assoc, Rinv_l by lra. lra. }
  rewrite calculate_RU_value in ERU by lra. inversion ERU as [EU].
  assert (Hsp : 0 <= spsr st)
    by (rewrite Espsr; left; apply SPSR_bounds; exact Hb).
  pose proof (Rpower_unit_base (1 - channels c / R) (spsr st) ltac:(lra) Hsp) as Hpow.
  split; [ nra | ]. split; [ rewrite EU; exact Hbound | exact Espsr ].
Qed.

(** Under the restrictions on [beta], [rc1 + rc2], [s] and [channels], every
    per-neighbor success probability of a run is a probability. *)
Lemma valid_configuration_neighbor_probabilities (fuel : nat) (c : config) :
  0 < beta c -> 2 <= rc1 c + rc2 c -> 0 < s c ->
  0 <= channels c < maxchannel c * (rri c / slot c) ->
  channels c ^ 2 <= s c * (maxchannel c * (rri c / slot c)) ->
  neighbor_probabilities_in_unit fuel c.
Proof.
  intros Hb Hrc Hs Hc Hsq dv distances st d_ij pairs Hi Ht _ Hp.
  pose proof (initialise_R_tot _ _ _ Hi) as ER. rewrite <- ER in Hc, Hsq.
  destruct (threshold_adjust_utilisation _ _ _ _ Ht Hb Hc) as [HRU [Hbound Espsr]].
  set (R := R_tot dv) in *.
  unfold neighbor_samples in Hp.
  invert_bind Hp. invert_bind Hp. apply mapM_returns in Hp. clear E0.
  induction Hp as [ | dik ps diks pairs Hd _ IH ]; constructor; [ | exact IH ].
  apply neighbor_sample_returns in Hd. destruct Hd as [p_dik [Hp' [Hne [Ef Es]]]].
  destruct (collision_probability_range c dv st dik Hb Hrc HRU Espsr) as [p [Hp'' Hpb]].
  rewrite Hp' in Hp''. inversion Hp''. subst p.
  fold R in Hpb. assert (Hone : channels c ^ 2 / (R - RU st) <= 1).
  { apply Rmult_le_reg_r with (R - RU st); [ nra | ].
    unfold Rdiv. rewrite Rmult_assoc, Rinv_l by nra. nra. }
  pose proof (reuse_ratio_in_unit (RU st) R ltac:(lra) ltac:(lra)) as Hq.
  rewrite Ef, Es, calculate_ps_dik_reuse. unfold in_unit. fold R.
  assert (0 <= p_dik * (RU st / R) <= p_dik) by nra.
  lra.
Qed.


End ValidConfigurations.

(* ================================================================== *)
(** ** A run evaluated: [shared_cell] *)

Lemma shared_cell_initialise :
  exists dv, initialise shared_cell = Returns (dv, [0; 1; 2]%Z) /\ shared_cell_locals dv.
Proof.
  unfold initialise, shared_cell.
  cbn [fc P_s_dB P_t_dB N_0_dB sinr_threshold_dB maxchannel channels rri slot].
  rewrite math_log10_positive by lra. cbn [bind].
  change (outer_distances _) with (Returns (A := list Z) [0; 1; 2]%Z). cbn [bind].
  rewrite !py_div_returns by lra. cbn [bind].
  eexists. split; [ reflexivity | ].
  unfold shared_cell_locals. cbn [P_t K_0_dB K_0 N_0 sinr_threshold R_tot].
  rewrite Rlog_10_1, Rpower_10_0.
  repeat split; try lra.
  - apply exp_pos.
  - replace (-42.4 / 10) with (- (32.4 + 20 * 0) / 10 + - (1)) by lra.
    rewrite Rpower_plus, Rpower_Ropp, Rpower_1 by lra. reflexivity.
Qed.

(** The interference distance in a cell with [P_t = 1], [gamma = 1],
    [alpha = 1] and [N_0 = K_0 / 10]. *)
Lemma calculate_d_int_unit_cell (K d : R) :
  0 < K -> 0 < d < 10 ->
  calculate_d_int 1 K 1 d 1 (K / 10) = Returns (10 * d / (10 - d)).
Proof.
  intros HK [Hd0 Hd1]. unfold calculate_d_int.
  rewrite py_pow_positive by lra. cbn [bind].
  rewrite (Rpower_1 d) by lra.
  rewrite py_div_returns by lra. cbn [bind].
  assert (Hden : 1 * K / (1 * d) - K / 10 = K * (10 - d) / (10 * d)) by (field; lra).
  assert (Hpos : 0 < K * (10 - d) / (10 * d)).
  { apply Rdiv_lt_0_compat; nra. }
  rewrite py_div_returns by lra. cbn [bind].
  rewrite py_div_returns by lra. cbn [bind].
  assert (Eratio : 1 * K / (1 * K / (1 * d) - K / 10) = 10 * d / (10 - d))
    by (field; repeat split; nra).
  rewrite Eratio.
  assert (0 < 10 * d / (10 - d)) by (apply Rdiv_lt_0_compat; lra).
  rewrite py_pow_positive by assumption.
  replace (1 / 1) with 1 by lra. rewrite Rpower_1 by assumption. reflexivity.
Qed.

Section SharedCell.

Context {SF : SpecialFunctions}.
Variable dv : derived.
Hypothesis Hdv : shared_cell_locals dv.

Lemma shared_cell_threshold (fuel : nat) :
  exists st, threshold_adjust fuel shared_cell dv = Returns st /\
             cur_P_s_dB st = - 40 /\
             spsr st = SPSR 0.5 0 (- 40) (K_0_dB dv) 1 /\
             0 <= RU st <= 5000.
Proof.
  destruct Hdv as [_ [_ [_ [_ [_ ER]]]]].
  pose proof (SPSR_bounds 0.5 0 (- 40) (K_0_dB dv) 1 ltac:(lra)) as Hs.
  assert (Hs' : 0 <= SPSR 0.5 0 (- 40) (K_0_dB dv) 1 <= 2000) by lra.
  set (sp := SPSR 0.5 0 (- 40) (K_0_dB dv) 1) in *.
  assert (Hsense : sense shared_cell dv (- 40) =
                   Returns {| cur_P_s_dB := - 40; spsr := sp;
                              RU := 10000 * (1 - Rpower (1 - 2 / 10000) sp) |}).
  { unfold sense. cbn [beta P_t_dB alpha channels shared_cell]. rewrite ER.
    rewrite py_div_returns by lra. cbn [bind].
    rewrite calculate_RU_value by lra. reflexivity. }
  pose proof (Rpower_bernoulli (2 / 10000) sp ltac:(lra) ltac:(lra)) as Hlow.
  pose proof (Rpower_unit_base (1 - 2 / 10000) sp ltac:(lra) ltac:(lra)) as Hup.
  assert (E : 2 / 10000 / (1 - 2 / 10000) = 2 / 9998) by (field; lra).
  rewrite E in Hlow.
  assert (HRU : 0 <= 10000 * (1 - Rpower (1 - 2 / 10000) sp) <= 5000) by lra.
  exists {| cur_P_s_dB := - 40; spsr := sp;
            RU := 10000 * (1 - Rpower (1 - 2 / 10000) sp) |}.
  split; [ | split; [ reflexivity | split; [ reflexivity | exact HRU ] ] ].
  unfold threshold_adjust. change (P_s_dB shared_cell) with (- 40).
  rewrite Hsense. cbn [bind]. apply adjust_threshold_exit.
  cbn [RU]. rewrite ER. change (s shared_cell) with 0.5. lra.
Qed.

Variable st : sensing.
Hypothesis Hspsr :
  spsr st = SPSR (beta shared_cell) (P_t_dB shared_cell) (cur_P_s_dB st) (K_0_dB dv)
              (alpha shared_cell).
Hypothesis HRU : 0 <= RU st <= 5000.

Lemma shared_cell_neighbor_sample (dik : Z) :
  exists ps, neighbor_sample shared_cell dv st dik = Returns ps.
Proof.
  destruct Hdv as [_ [_ [_ [_ [_ ER]]]]].
  destruct (collision_probability_range shared_cell dv st dik) as [p [Hp _]];
    [ simpl; lra | simpl; lra | rewrite ER; lra | exact Hspsr | ].
  unfold neighbor_sample. rewrite Hp. cbn [bind].
  rewrite ER. rewrite py_div_returns by lra. cbn [bind]. eexists. reflexivity.
Qed.

Lemma shared_cell_neighbor_samples (d_ij : Z) (d_int : R) (diks : list Z) :
  (0 <= d_ij <= 8)%Z ->
  d_int = 10 * IZR (d_ij + 1) / (10 - IZR (d_ij + 1)) ->
  neighbor_range 0.5 d_ij d_int = Returns diks ->
  exists pairs, neighbor_samples shared_cell dv st d_ij = Returns pairs /\
                length pairs = length diks.
Proof.
  intros Hd Ed Hr.
  destruct Hdv as [EPt [_ [HK [EN [Es _]]]]].
  unfold neighbor_samples. rewrite EPt, Es, EN. change (alpha shared_cell) with 1.
  assert (Hd' : 0 < IZR (d_ij + 1) < 10).
  { split; [ apply IZR_lt | apply (IZR_lt _ 10) ]; lia. }
  rewrite calculate_d_int_unit_cell by assumption. cbn [bind].
  rewrite <- Ed. change (beta shared_cell) with 0.5. rewrite Hr. cbn [bind].
  apply mapM_total. intros dik _. apply shared_cell_neighbor_sample.
Qed.

End SharedCell.

Lemma shared_cell_ranges :
  neighbor_range 0.5 0 (10 * IZR (0 + 1) / (10 - IZR (0 + 1))) = Returns [- 1]%Z /\
  neighbor_range 0.5 1 (10 * IZR (1 + 1) / (10 - IZR (1 + 1))) = Returns [- 1; 1]%Z /\
  neighbor_range 0.5 2 (10 * IZR (2 + 1) / (10 - IZR (2 + 1))) = Returns [- 2; 0; 2; 4]%Z.
Proof.
  unfold neighbor_range.
  rewrite py_div_returns by lra. cbn [bind].
  replace (1 / 0.5) with (IZR 2) by lra. rewrite py_int_IZR.
  change (IZR (0 + 1)) with 1. change (IZR (1 + 1)) with 2. change (IZR (2 + 1)) with 3.
  split; [ | split ].
  - rewrite (py_int_neg (IZR 0 - 10 * 1 / (10 - 1)) (-1)) by lra.
    rewrite (py_int_nonneg (IZR 0 + 10 * 1 / (10 - 1)) 1) by lra. reflexivity.
  - rewrite (py_int_neg (IZR 1 - 10 * 2 / (10 - 2)) (-1)) by lra.
    rewrite (py_int_nonneg (IZR 1 + 10 * 2 / (10 - 2)) 3) by lra. reflexivity.
  - rewrite (py_int_neg (IZR 2 - 10 * 3 / (10 - 3)) (-2)) by lra.
    rewrite (py_int_nonneg (IZR 2 + 10 * 3 / (10 - 3)) 6) by lra. reflexivity.
Qed.

Lemma shared_cell_run {SF : SpecialFunctions} (fuel : nat) :
  exists dv st pairs0 pairs1 pairs2,
    initialise shared_cell = Returns (dv, [0; 1; 2]%Z) /\
    threshold_adjust fuel shared_cell dv = Returns st /\
    neighbor_samples shared_cell dv st 0 = Returns pairs0 /\ length pairs0 = 1%nat /\
    neighbor_samples shared_cell dv st 1 = Returns pairs1 /\ length pairs1 = 2%nat /\
    neighbor_samples shared_cell dv st 2 = Returns pairs2 /\ length pairs2 = 4%nat /\
    calculate_analytical_results fuel shared_cell =
      Returns (collect [aggregate (rri shared_cell) (map fst pairs0) (map snd pairs0);
                        aggregate (rri shared_cell) (map fst pairs1) (map snd pairs1);
                        aggregate (rri shared_cell) (map fst pairs2) (map snd pairs2)]).
Proof.
  destruct shared_cell_initialise as [dv [Hi Hdv]].
  destruct (shared_cell_threshold dv Hdv fuel) as [st [Ht [EP [Espsr HRU]]]].
  assert (Hspsr : spsr st = SPSR (beta shared_cell) (P_t_dB shared_cell) (cur_P_s_dB st)
                              (K_0_dB dv) (alpha shared_cell))
    by (rewrite EP; exact Espsr).
  destruct shared_cell_ranges as [R0 [R1 R2]].
  destruct (shared_cell_neighbor_samples dv Hdv st Hspsr HRU 0 _ _ ltac:(lia) eq_refl R0)
    as [pairs0 [H0 L0]].
  destruct (shared_cell_neighbor_samples dv Hdv st Hspsr HRU 1 _ _ ltac:(lia) eq_refl R1)
    as [pairs1 [H1 L1]].
  destruct (shared_cell_neighbor_samples dv Hdv st Hspsr HRU 2 _ _ ltac:(lia) eq_refl R2)
    as [pairs2 [H2 L2]].
  exists dv, st, pairs0, pairs1, pairs2.
  repeat (split; [ assumption | ]).
  apply (run_of_parts fuel shared_cell dv [0; 1; 2]%Z st); try assumption.
  repeat constructor; unfold distance_sample;
    [ rewrite H0 | rewrite H1 | rewrite H2 ]; reflexivity.
Qed.


(* ================================================================== *)
(** ** A run evaluated: the threshold loop of [loop_cell] *)

Lemma np_sum_map_ge_length {A : Type} (f : A -> R) (c : R) (l : list A) :
  (forall a, In a l -> c <= f a) -> c * INR (length l) <= np_sum (map f l).
Proof.
  induction l as [ | a l IH ]; intro H.
  - simpl. lra.
  - change (np_sum (map f (a :: l))) with (f a + np_sum (map f l)).
    change (length (a :: l)) with (S (length l)). rewrite S_INR.
    assert (c <= f a) by (apply H; left; reflexivity).
    assert (c * INR (length l) <= np_sum (map f l))
      by (apply IH; intros b Hb; apply H; right; exact Hb).
    lra.
Qed.

Lemma np_sum_map_le_const {A : Type} (f : A -> R) (c : R) (l : list A) :
  (forall a, f a <= c) -> np_sum (map f l) <= c * INR (length l).
Proof.
  intro H. induction l as [ | a l IH ].
  - simpl. lra.
  - change (np_sum (map f (a :: l))) with (f a + np_sum (map f l)).
    change (length (a :: l)) with (S (length l)). rewrite S_INR.
    specialize (H a). lra.
Qed.

Lemma np_arange_window_bound (a : Z) :
  In a (np_arange (-2000) 2000) -> Rabs (IZR a) <= 2000.
Proof.
  intro H. apply range_elements_below_stop in H; [ | lia ].
  apply Rabs_le. split; [ rewrite <- opp_IZR | ]; apply IZR_le; lia.
Qed.

Lemma sqrt_2_bounds : 1 < sqrt 2 < 2.
Proof.
  assert (H0 : 0 <= sqrt 2) by apply sqrt_pos.
  assert (H2 : sqrt 2 * sqrt 2 = 2) by (apply sqrt_sqrt; lra).
  split; nra.
Qed.

Lemma Rlog_10_window (x : R) : 1 <= x <= 10000 -> 0 <= Rlog 10 x <= 4.
Proof.
  intros [H1 H2]. split.
  - rewrite <- Rlog_10_1. apply Rlog_10_monotone; lra.
  - replace 4 with (Rlog 10 (10 ^ 4)).
    + apply Rlog_10_monotone; [ lra | ]. simpl. lra.
    + rewrite Rlog_pow by lra. simpl. lra.
Qed.

Lemma soft_sign_nonneg (y : R) : 0 <= y -> 0 <= soft_sign y.
Proof.
  intro H. unfold soft_sign. apply Rmult_le_pos; [ exact H | ].
  left. apply Rinv_0_lt_compat. pose proof (Rabs_pos y). lra.
Qed.

Lemma soft_sign_below_minus_half (y : R) : y <= -1 -> soft_sign y <= - (1 / 2).
Proof.
  intro H. apply Rle_trans with (soft_sign (-1)); [ apply soft_sign_monotone; exact H | ].
  unfold soft_sign. rewrite Rabs_left by lra. right. field.
Qed.

(** Powers of 1/2 around the exponent 1. *)
Lemma Rpower_half_above (y : R) : 1 < y -> Rpower (1 / 2) y < 1 / 2.
Proof.
  intro H. rewrite <- (Rpower_1 (1 / 2)) at 2 by lra. unfold Rpower.
  apply exp_increasing.
  assert (ln (1 / 2) < 0) by (rewrite <- ln_1; apply ln_increasing; lra).
  nra.
Qed.

Lemma Rpower_half_below (y : R) : y <= 1 -> 1 / 2 <= Rpower (1 / 2) y.
Proof.
  intro H. rewrite <- (Rpower_1 (1 / 2)) at 1 by lra.
  apply Rpower_unit_base_antitone; [ lra | exact H ].
Qed.

(** If every sensitivity can be sensed and the bound holds after [N]
    increments, the loop returns on fuel [N]. *)
Lemma adjust_threshold_reaches {SF : SpecialFunctions} (c : config) (dv : derived) (N : nat) :
  (forall P, exists st, sense c dv P = Returns st) ->
  forall P0 st0,
    sense c dv P0 = Returns st0 ->
    (exists stN, sense c dv (P0 + 3 * INR N) = Returns stN /\
                 RU stN <= (1 - s c) * R_tot dv) ->
    exists st, adjust_threshold N c dv st0 = Returns st.
Proof.
  intro Htot. induction N as [ | N IH ]; intros P0 st0 H0 [stN [HN Hb]].
  - replace (P0 + 3 * INR 0) with P0 in HN by (simpl; lra).
    rewrite H0 in HN. inversion HN. subst stN.
    exists st0. apply adjust_threshold_exit. lra.
  - destruct (Rgt_dec (RU st0) ((1 - s c) * R_tot dv)) as [Hgt | Hle].
    + rewrite adjust_threshold_step by exact Hgt.
      destruct (sense_returns _ _ _ _ H0) as [EP _]. rewrite EP.
      destruct (Htot (P0 + 3)) as [st1 H1]. rewrite H1. cbn [bind].
      apply (IH (P0 + 3) st1 H1). exists stN. split; [ | exact Hb ].
      rewrite S_INR in HN.
      replace (P0 + 3 + 3 * INR N) with (P0 + 3 * (INR N + 1)) by lra. exact HN.
    + exists st0. apply adjust_threshold_exit. exact Hle.
Qed.

Section LoopCell.

Context {SF : SpecialFunctions}.
Variable dv : derived.
Hypothesis HK : K_0_dB dv = - 32.4.
Hypothesis HR : R_tot dv = 4.

Lemma loop_cell_sense (P : R) :
  exists st,
    sense loop_cell dv P = Returns st /\
    RU st = 4 * (1 - Rpower (1 / 2) (SPSR (/ 1000) 23 P (- 32.4) 1)).
Proof.
  unfold sense. cbn [beta P_t_dB alpha channels loop_cell]. rewrite HR, HK.
  rewrite py_div_returns by lra. cbn [bind].
  rewrite calculate_RU_value by lra. cbn [bind].
  eexists. split; [ reflexivity | ]. cbn [RU].
  replace (1 - 2 / 4) with (1 / 2) by lra. reflexivity.
Qed.

End LoopCell.

(** With [soft_sign] for [erf]: the whole window is sensed at the initial
    sensitivity, and almost nothing of it 48 dB higher. *)
Lemma loop_cell_SPSR_initial :
  2 <= @SPSR soft_sign_functions (/ 1000) 23 (- 49.4) (- 32.4) 1.
Proof.
  unfold SPSR.
  assert (H : 1 / 2 * INR (length (np_arange (-2000) 2000))
              <= np_sum (map (fun d => @PSR soft_sign_functions (IZR d) 23 (- 49.4) (- 32.4) 1)
                             (np_arange (-2000) 2000))).
  { apply np_sum_map_ge_length. intros a Ha.
    apply np_arange_window_bound in Ha.
    unfold PSR, PathLoss. cbn [erf soft_sign_functions].
    pose proof (Rlog_10_window (Rabs (IZR a) + 1)
                  ltac:(pose proof (Rabs_pos (IZR a)); lra)) as Hlog.
    pose proof sqrt_2_bounds as Hsq.
    match goal with |- _ <= 0.5 * (1 + soft_sign ?y) =>
      assert (Hy : 0 <= y); [ | pose proof (soft_sign_nonneg y Hy); lra ] end.
    apply Rmult_le_pos; [ lra | left; apply Rinv_0_lt_compat; nra ]. }
  rewrite np_arange_window_length in H.
  replace (INR 4000) with 4000 in H by (rewrite INR_IZR_INZ; reflexivity).
  lra.
Qed.

Lemma loop_cell_SPSR_final :
  @SPSR soft_sign_functions (/ 1000) 23 (- 49.4 + 3 * INR 16) (- 32.4) 1 <= 1.
Proof.
  unfold SPSR.
  assert (H : np_sum (map (fun d => @PSR soft_sign_functions (IZR d) 23
                                      (- 49.4 + 3 * INR 16) (- 32.4) 1)
                          (np_arange (-2000) 2000))
              <= 1 / 4 * INR (length (np_arange (-2000) 2000))).
  { apply np_sum_map_le_const. intro a.
    unfold PSR, PathLoss. cbn [erf soft_sign_functions].
    assert (Hlog : 0 <= Rlog 10 (Rabs (IZR a) + 1)).
    { rewrite <- Rlog_10_1. apply Rlog_10_monotone; [ lra | ].
      pose proof (Rabs_pos (IZR a)). lra. }
    pose proof sqrt_2_bounds as Hsq.
    match goal with |- 0.5 * (1 + soft_sign ?y) <= _ =>
      assert (Hy : y <= -1); [ | pose proof (soft_sign_below_minus_half y Hy); lra ] end.
    replace (INR 16) with 16 by (rewrite INR_IZR_INZ; reflexivity).
    apply Rmult_le_reg_r with (3 * sqrt 2); [ lra | ].
    unfold Rdiv. rewrite Rmult_assoc, Rinv_l by lra. lra. }
  rewrite np_arange_window_length in H.
  replace (INR 4000) with 4000 in H by (rewrite INR_IZR_INZ; reflexivity).
  lra.
Qed.

Lemma loop_cell_initialise :
  exists dv, initialise loop_cell = Returns (dv, [0%Z]) /\
             K_0_dB dv = - 32.4 /\ R_tot dv = 4.
Proof.
  unfold initialise, loop_cell.
  cbn [fc P_s_dB P_t_dB N_0_dB sinr_threshold_dB maxchannel channels rri slot].
  rewrite math_log10_positive by lra. cbn [bind].
  change (outer_distances _) with (Returns (A := list Z) [0%Z]). cbn [bind].
  rewrite !py_div_returns by lra. cbn [bind].
  eexists. split; [ reflexivity | ].
  cbn [K_0_dB R_tot]. rewrite Rlog_10_1. split; lra.
Qed.

(** C6, witness: in [loop_cell] the bound is violated at the initial
    sensitivity and holds 48 dB higher, so the loop makes between 1 and 16
    passes of 3 dB. *)
Lemma threshold_adjust_exit_bound_witness :
  exists dv st n,
    initialise loop_cell = Returns (dv, [0%Z]) /\
    @threshold_adjust soft_sign_functions 16 loop_cell dv = Returns st /\
    (1 <= n <= 16)%nat /\
    cur_P_s_dB st = P_s_dB loop_cell + 3 * INR n /\
    RU st <= (1 - s loop_cell) * R_tot dv /\
    spsr st = @SPSR soft_sign_functions (beta loop_cell) (P_t_dB loop_cell)
                (cur_P_s_dB st) (K_0_dB dv) (alpha loop_cell) /\
    calculate_RU (R_tot dv) (spsr st) (channels loop_cell / R_tot dv) = Returns (RU st) /\
    forall k : nat, (k < n)%nat ->
      exists stk,
        @sense soft_sign_functions loop_cell dv (P_s_dB loop_cell + 3 * INR k) = Returns stk /\
        RU stk > (1 - s loop_cell) * R_tot dv.
Proof.
  destruct loop_cell_initialise as [dv [Hi [HK HR]]].
  assert (Ht : exists st, @threshold_adjust soft_sign_functions 16 loop_cell dv = Returns st).
  { unfold threshold_adjust.
    destruct (@loop_cell_sense soft_sign_functions dv HK HR (P_s_dB loop_cell)) as [st0 [H0 _]].
    rewrite H0. cbn [bind].
    apply (@adjust_threshold_reaches soft_sign_functions loop_cell dv 16) with (P0 := P_s_dB loop_cell).
    - intro P. destruct (@loop_cell_sense soft_sign_functions dv HK HR P) as [st [Hs _]].
      exists st. exact Hs.
    - exact H0.
    - destruct (@loop_cell_sense soft_sign_functions dv HK HR (P_s_dB loop_cell + 3 * INR 16))
        as [stN [HN EN]].
      exists stN. split; [ exact HN | ].
      rewrite EN, HR. change (s loop_cell) with (1 / 2).
      change (P_s_dB loop_cell) with (- 49.4).
      pose proof (Rpower_half_below _ loop_cell_SPSR_final). lra. }
  destruct Ht as [st Ht].
  destruct (proj1 (@threshold_adjust_exit_bound soft_sign_functions 16 loop_cell dv st) Ht)
    as [Hb [Espsr [ERU [n [Hn [EP Hk]]]]]].
  exists dv, st, n.
  split; [ exact Hi | ]. split; [ exact Ht | ].
  split; [ | split; [ exact EP | split; [ exact Hb | split; [ exact Espsr | split; [ exact ERU | exact Hk ] ] ] ] ].
  split; [ | exact Hn ].
  destruct n as [ | n ]; [ exfalso | lia ].
  replace (P_s_dB loop_cell + 3 * INR 0) with (- 49.4) in EP by (simpl; lra).
  rewrite EP in Espsr. rewrite HK in Espsr. cbn [beta P_t_dB alpha loop_cell] in Espsr.
  rewrite HR in ERU, Hb. cbn [channels loop_cell] in ERU.
  rewrite calculate_RU_value in ERU by lra. inversion ERU as [EU].
  replace (1 - 2 / 4) with (1 / 2) in EU by lra.
  change (s loop_cell) with (1 / 2) in Hb.
  pose proof loop_cell_SPSR_initial as H2. rewrite <- Espsr in H2.
  pose proof (Rpower_half_above (spsr st) ltac:(lra)). lra.
Defined.
